(** * The import-counting generator pipeline of [11/generators-template.py]

    A shallow embedding of the pipeline stages and of the two driver
    computations, followed by the properties of the stages and drivers.

    Conventions of the embedding.
    - A Python [str] is a [string]; [==] on strings is [String.eqb], [<] is
      [String.ltb] (lexicographic on character codes).
    - A generator that cannot raise is embedded as the list of the values it
      yields.  [grep], which can raise, is embedded twice: as a resumable
      state machine ([grep_call], [grep_next]) and as the result of draining
      it ([grep]); [grep_list_drains] connects the two.
    - [re], [str.replace], [sorted], [itertools.groupby] and
      [collections.Counter] are library code: each is embedded next to the
      function of the script that calls it.  A [dict] keeps its keys in
      insertion order (Python 3.7 and later).
    - [expand_wildcard] and [lines_from_paths] read the file system; the
      drivers take the sequence of lines they deliver as their input
      [raw]. *)

From Stdlib Require Import List String Ascii Arith Bool Lia.
From Stdlib Require Import Permutation Sorted OrderedTypeEx.
From Stdlib Require Import DecimalString.
From Stdlib Require DecimalNat.
Import ListNotations.

Open Scope string_scope.
Open Scope list_scope.

(** ** Results of computations that may raise *)

Definition result (E A : Type) : Type := (E + A)%type.

Definition ok {E A : Type} (a : A) : result E A := inr a.
Definition raise {E A : Type} (e : E) : result E A := inl e.

Definition bind {E A B : Type} (m : result E A) (k : A -> result E B)
  : result E B :=
  match m with
  | inl e => inl e
  | inr a => k a
  end.

Notation "x <- m ;; k" := (bind m (fun x => k))
  (at level 61, m at next level, right associativity).

(** ** [str] operations used by the script *)

(** [sub in line] *)
Fixpoint contains (sub line : string) : bool :=
  prefix sub line
  || match line with
     | EmptyString => false
     | String _ rest => contains sub rest
     end.

(** [line.replace("", new)]: [new] before every character and at the end. *)
Fixpoint interleave (new line : string) : string :=
  match line with
  | EmptyString => new
  | String c rest => append new (String c (interleave new rest))
  end.

(** Left-to-right scan of [line.replace(old, new)] for a non-empty [old];
    [skip] counts the characters of the occurrence just replaced that are
    still to be passed over. *)
Fixpoint replace_from (skip : nat) (old new line : string) : string :=
  match line with
  | EmptyString => EmptyString
  | String c rest =>
      match skip with
      | S k => replace_from k old new rest
      | O =>
          if prefix old line
          then append new (replace_from (String.length old - 1) old new rest)
          else String c (replace_from 0 old new rest)
      end
  end.

(** [line.replace(old, new)] *)
Definition str_replace (line old new : string) : string :=
  match old with
  | EmptyString => interleave new line
  | String _ _ => replace_from 0 old new line
  end.

(** ** Regular-expression engines

    The script uses [re.compile] and [re.search] only; an engine is any pair
    of such functions.  [re_compile] returns the error it raises on an
    invalid pattern. *)

Record regex_engine : Type := {
  re_error : Type;
  re_pattern : Type;
  re_compile : string -> result re_error re_pattern;
  re_search : re_pattern -> string -> bool
}.

(** *** An engine for a fragment of the pattern syntax

    Literal characters, [.], [^], [$], backslash-escaped punctuation, the
    postfix repeats [*], [+], [?] on a single character, and [|].  [compile]
    raises [ReError] where [re.compile] raises [re.error] on such a pattern,
    and [OutsideFragment] on a pattern that uses anything else (groups,
    classes, counted or lazy repeats, letter and digit escapes). *)

Module ReFragment.

Inductive atom : Type :=
| Lit (c : ascii)
| AnyChar
| Bol
| Eol.

Inductive quant : Type := Once | Star | Plus | Opt.

Definition item : Type := (atom * quant)%type.
Definition branch : Type := list item.
Definition regex : Type := list branch.

Inductive compile_error : Type :=
| ReError (msg : string)
| OutsideFragment (c : ascii).

Definition is_anchor (a : atom) : bool :=
  match a with
  | Bol | Eol => true
  | _ => false
  end.

Definition is_alnum (c : ascii) : bool :=
  let n := nat_of_ascii c in
  (((48 <=? n) && (n <=? 57)) || ((65 <=? n) && (n <=? 90))
   || ((97 <=? n) && (n <=? 122)))%nat.

Definition repeat_of (c : ascii) : option quant :=
  if Ascii.eqb c "*"%char then Some Star
  else if Ascii.eqb c "+"%char then Some Plus
  else if Ascii.eqb c "?"%char then Some Opt
  else None.

Definition is_unmodelled (c : ascii) : bool :=
  Ascii.eqb c "("%char || Ascii.eqb c ")"%char || Ascii.eqb c "["%char || Ascii.eqb c "{"%char.

(** [done]: the finished branches, last first; [cur]: the items of the
    branch being read, last first. *)
Fixpoint parse (pat : string) (done : list branch) (cur : branch)
  : result compile_error regex :=
  match pat with
  | EmptyString => ok (rev (rev cur :: done))
  | String c rest =>
      if Ascii.eqb c "|"%char then parse rest (rev cur :: done) []
      else
        match repeat_of c with
        | Some q =>
            match cur with
            | [] => raise (ReError "nothing to repeat")
            | (a, Once) :: cur' =>
                if is_anchor a then raise (ReError "nothing to repeat")
                else parse rest done ((a, q) :: cur')
            | (_, _) :: _ =>
                if Ascii.eqb c "*"%char then raise (ReError "multiple repeat")
                else raise (OutsideFragment c)
            end
        | None =>
            if Ascii.eqb c "\"%char then
              match rest with
              | EmptyString => raise (ReError "bad escape (end of pattern)")
              | String d rest' =>
                  if is_alnum d then raise (OutsideFragment d)
                  else parse rest' done ((Lit d, Once) :: cur)
              end
            else if is_unmodelled c then raise (OutsideFragment c)
            else if Ascii.eqb c "."%char then parse rest done ((AnyChar, Once) :: cur)
            else if Ascii.eqb c "^"%char then parse rest done ((Bol, Once) :: cur)
            else if Ascii.eqb c "$"%char then parse rest done ((Eol, Once) :: cur)
            else parse rest done ((Lit c, Once) :: cur)
        end
  end.

Definition compile (pat : string) : result compile_error regex :=
  parse pat [] [].

Definition newline : ascii := ascii_of_nat 10.

Definition atom_accepts (a : atom) (c : ascii) : bool :=
  match a with
  | Lit d => Ascii.eqb c d
  | AnyChar => negb (Ascii.eqb c newline)
  | Bol | Eol => false
  end.

(** [$] holds at the end of the string and just before a final newline. *)
Definition at_end (s : string) : bool :=
  match s with
  | EmptyString => true
  | String c EmptyString => Ascii.eqb c newline
  | _ => false
  end.

(** [match_items items bol s]: [items] match some prefix of [s]; [bol]
    tells whether [s] starts at the beginning of the searched string. *)
Fixpoint match_items (items : branch) (bol : bool) (s : string)
  {struct items} : bool :=
  match items with
  | [] => true
  | (a, q) :: rest =>
      let star :=
        fix star (b : bool) (t : string) {struct t} : bool :=
          match_items rest b t
          || match t with
             | String c t' => atom_accepts a c && star false t'
             | EmptyString => false
             end in
      match a with
      | Bol => bol && match_items rest bol s
      | Eol => at_end s && match_items rest bol s
      | _ =>
          match q with
          | Once =>
              match s with
              | String c s' => atom_accepts a c && match_items rest false s'
              | EmptyString => false
              end
          | Opt =>
              match_items rest bol s
              || match s with
                 | String c s' => atom_accepts a c && match_items rest false s'
                 | EmptyString => false
                 end
          | Star => star bol s
          | Plus =>
              match s with
              | String c s' => atom_accepts a c && star false s'
              | EmptyString => false
              end
          end
      end
  end.

Definition match_regex (r : regex) (bol : bool) (s : string) : bool :=
  existsb (fun br => match_items br bol s) r.

(** A match starting at the current position or at any later one. *)
Fixpoint search_from (r : regex) (bol : bool) (s : string) : bool :=
  match_regex r bol s
  || match s with
     | String _ s' => search_from r false s'
     | EmptyString => false
     end.

Definition search (r : regex) (s : string) : bool := search_from r true s.

Definition engine : regex_engine :=
  {| re_error := compile_error;
     re_pattern := regex;
     re_compile := compile;
     re_search := search |}.

End ReFragment.

(** ** [grep] *)

Section Grep.

Variable E : regex_engine.

(** The loop [for line in string_list: if re.search(pattern, line): yield
    line], drained. *)
Definition grep_loop (pattern : re_pattern E) (string_list : list string)
  : list string :=
  filter (re_search E pattern) string_list.

(** [list(grep(string_list, pattern))] *)
Definition grep (string_list : list string) (pattern : string)
  : result (re_error E) (list string) :=
  pattern <- re_compile E pattern ;;
  ok (grep_loop pattern string_list).

(** *** The generator object

    Calling a generator function runs none of its body: the body starts at
    the first [next]. *)

Inductive grep_state : Type :=
| Created (string_list : list string) (pattern : string)
| Suspended (pattern : re_pattern E) (string_list : list string)
| Closed.

Inductive event : Type :=
| EvCompile (pattern : string)
| EvExamine (line : string).

Inductive outcome : Type :=
| Yield (line : string)
| StopIteration
| Raise (e : re_error E).

(** The call expression [grep(string_list, pattern)]. *)
Definition grep_call (string_list : list string) (pattern : string)
  : result (re_error E) grep_state :=
  ok (Created string_list pattern).

(** Resume inside the [for] loop, up to the next [yield]. *)
Fixpoint grep_resume (pattern : re_pattern E) (string_list : list string)
  : list event * outcome * grep_state :=
  match string_list with
  | [] => ([], StopIteration, Closed)
  | line :: rest =>
      if re_search E pattern line
      then ([EvExamine line], Yield line, Suspended pattern rest)
      else
        let '(evs, o, st) := grep_resume pattern rest in
        (EvExamine line :: evs, o, st)
  end.

(** [next(g)] *)
Definition grep_next (g : grep_state) : list event * outcome * grep_state :=
  match g with
  | Created string_list pattern =>
      match re_compile E pattern with
      | inl e => ([EvCompile pattern], Raise e, Closed)
      | inr compiled =>
          let '(evs, o, st) := grep_resume compiled string_list in
          (EvCompile pattern :: evs, o, st)
      end
  | Suspended compiled string_list => grep_resume compiled string_list
  | Closed => ([], StopIteration, Closed)
  end.

(** [list(g)]: [next] until [StopIteration]; [None] when [fuel] calls of
    [next] were not enough. *)
Fixpoint drain (fuel : nat) (g : grep_state)
  : option (list event * result (re_error E) (list string)) :=
  match fuel with
  | O => None
  | S fuel' =>
      match grep_next g with
      | (evs, Raise e, _) => Some (evs, raise e)
      | (evs, StopIteration, _) => Some (evs, ok [])
      | (evs, Yield line, g') =>
          match drain fuel' g' with
          | None => None
          | Some (evs', r) =>
              Some (evs ++ evs', lines <- r ;; ok (line :: lines))
          end
      end
  end.

Definition is_compile (ev : event) : bool :=
  match ev with
  | EvCompile _ => true
  | EvExamine _ => false
  end.

Definition examined (evs : list event) : list string :=
  flat_map (fun ev => match ev with
                      | EvExamine line => [line]
                      | EvCompile _ => []
                      end) evs.

End Grep.

Arguments Created {E}.
Arguments Suspended {E}.
Arguments Closed {E}.
Arguments Yield {E}.
Arguments StopIteration {E}.
Arguments Raise {E}.

(** ** [search_and_replace] *)

Definition search_and_replace (strings_list : list string)
  (search_term new_term : string) : list string :=
  map (fun line => str_replace line search_term new_term) strings_list.

(** ** [count_adjacent] *)

Section CountAdjacent.

Variable A : Type.
Variable eq_dec : forall x y : A, {x = y} + {x <> y}.

(** [itertools.groupby(iterable)]: [target] is the key of the group being
    read and [group] its elements so far; an element whose key differs from
    [target] closes the group and opens the next. *)
Fixpoint groupby_from (target : A) (group : list A) (iterable : list A)
  : list (A * list A) :=
  match iterable with
  | [] => [(target, group)]
  | x :: rest =>
      if eq_dec target x
      then groupby_from target (group ++ [x]) rest
      else (target, group) :: groupby_from x [x] rest
  end.

Definition groupby (iterable : list A) : list (A * list A) :=
  match iterable with
  | [] => []
  | x :: rest => groupby_from x [x] rest
  end.

(** [len(tuple(elements_group)), element] *)
Definition pair_of (kg : A * list A) : nat * A :=
  let '(element, elements_group) := kg in
  (List.length elements_group, element).

Definition count_adjacent (iterable : list A) : list (nat * A) :=
  map pair_of (groupby iterable).

Definition positive (p : nat * A) : Prop := 0 < fst p.

(** The sequence a list of [(count, element)] pairs stands for. *)
Definition expand (pairs : list (nat * A)) : list A :=
  flat_map (fun '(count, element) => repeat element count) pairs.

(** Neighbouring pairs carry different elements. *)
Fixpoint runs_maximal (pairs : list (nat * A)) : Prop :=
  match pairs with
  | [] => True
  | (_, x) :: rest =>
      match rest with
      | [] => True
      | (_, y) :: _ => x <> y
      end /\ runs_maximal rest
  end.

(** Sum of the counts of the pairs whose element is [x]. *)
Definition count_for (x : A) (pairs : list (nat * A)) : nat :=
  list_sum (map fst (filter (fun p => if eq_dec (snd p) x then true else false)
                            pairs)).

End CountAdjacent.

Arguments groupby_from {A}.
Arguments groupby {A}.
Arguments pair_of {A}.
Arguments count_adjacent {A}.
Arguments positive {A}.
Arguments expand {A}.
Arguments runs_maximal {A}.
Arguments count_for {A}.

(** ** [sorted] *)

Section Sorted.

Variable A : Type.
Variable lt : A -> A -> bool.

(** [x] goes in front of the first element that is not smaller than it. *)
Fixpoint insert (x : A) (l : list A) : list A :=
  match l with
  | [] => [x]
  | y :: l' => if lt y x then y :: insert x l' else x :: y :: l'
  end.

(** The stable ascending sort of [list.sort]. *)
Definition sort (l : list A) : list A := fold_right insert [] l.

(** [sorted(l, reverse=reverse)]: with [reverse] the list is reversed,
    sorted, and reversed again. *)
Definition sorted (reverse : bool) (l : list A) : list A :=
  if reverse then rev (sort (rev l)) else sort l.

End Sorted.

Arguments insert {A}.
Arguments sort {A}.
Arguments sorted {A}.

(** [<] on [(count, element)] tuples: the first differing component
    decides. *)
Definition tuple_lt (p q : nat * string) : bool :=
  if negb (fst p =? fst q)%nat then (fst p <? fst q)%nat
  else if negb (String.eqb (snd p) (snd q)) then String.ltb (snd p) (snd q)
  else false.

(** [sorted(l, key=key)] compares the keys. *)
Definition key_lt {A : Type} (key : A -> nat) (x y : A) : bool :=
  (key x <? key y)%nat.

(** ** [collections.Counter] *)

(** A [dict] with string keys, in insertion order. *)
Definition dict (V : Type) : Type := list (string * V).

Fixpoint dict_get {V : Type} (d : dict V) (k : string) (default : V) : V :=
  match d with
  | [] => default
  | (k', v) :: d' => if String.eqb k' k then v else dict_get d' k default
  end.

(** [d[k] = v]: an existing key keeps its place, a new key goes last. *)
Fixpoint dict_set {V : Type} (d : dict V) (k : string) (v : V) : dict V :=
  match d with
  | [] => [(k, v)]
  | (k', v') :: d' =>
      if String.eqb k' k then (k', v) :: d' else (k', v') :: dict_set d' k v
  end.

Definition dict_keys {V : Type} (d : dict V) : list string := map fst d.

(** [k in d] *)
Definition dict_has {V : Type} (d : dict V) (k : string) : bool :=
  existsb (String.eqb k) (dict_keys d).

(** [Counter.update(iterable)]: [self[elem] = self.get(elem, 0) + 1] for
    every element. *)
Definition counter_update (d : dict nat) (iterable : list string) : dict nat :=
  fold_left (fun d elem => dict_set d elem (dict_get d elem 0 + 1)) iterable d.

Definition Counter (iterable : list string) : dict nat :=
  counter_update [] iterable.

(** [counter.most_common()] is
    [sorted(self.items(), key=itemgetter(1), reverse=True)]. *)
Definition most_common (counter : dict nat) : list (string * nat) :=
  sorted (key_lt snd) true counter.

(** The distinct elements of a list, in order of first appearance. *)
Fixpoint first_seen (l : list string) : list string :=
  match l with
  | [] => []
  | x :: rest =>
      x :: filter (fun y => negb (String.eqb x y)) (first_seen rest)
  end.

(** ** The two drivers

    [raw] is the sequence of lines read from the files; each driver returns
    the [(count, name)] rows it prints, in print order. *)

(** The row printed for an item of the tally:
    [for name, count in ...: '{} {}'.format(count, name)]. *)
Definition row_of (item : string * nat) : nat * string :=
  let '(name, count) := item in (count, name).

Section Drivers.

Variable E : regex_engine.

Definition driverA (raw : list string)
  : result (re_error E) (list (nat * string)) :=
  let lines := raw in
  lines <- grep E lines "^import" ;;
  let lines := search_and_replace lines "import " "" in
  let lines := sorted String.ltb false lines in
  let count_and_names := count_adjacent string_dec lines in
  let count_and_names := sorted tuple_lt true count_and_names in
  ok count_and_names.

Definition driverB (raw : list string)
  : result (re_error E) (list (nat * string)) :=
  let lines := raw in
  lines <- grep E lines "^import" ;;
  let lines := search_and_replace lines "import " "" in
  let counter := Counter lines in
  ok (map row_of (most_common counter)).

(** The lines both drivers tally: what [search_and_replace] yields. *)
Definition import_names (raw : list string)
  : result (re_error E) (list string) :=
  lines <- grep E raw "^import" ;;
  ok (search_and_replace lines "import " "").

End Drivers.

(** What each driver does with the lines it tallies. *)
Definition driverA_rows (lines : list string) : list (nat * string) :=
  sorted tuple_lt true
         (count_adjacent string_dec (sorted String.ltb false lines)).

Definition driverB_rows (lines : list string) : list (nat * string) :=
  map row_of (most_common (Counter lines)).

(** ** Vocabulary of the properties *)

(** [s] is [l] with some elements left out. *)
Inductive subseq {A : Type} : list A -> list A -> Prop :=
| subseq_nil : subseq [] []
| subseq_skip (x : A) (s l : list A) : subseq s l -> subseq s (x :: l)
| subseq_keep (x : A) (s l : list A) : subseq s l -> subseq (x :: s) (x :: l).

(** Orders on the printed rows, [p] standing before [q]: by count
    descending; and with rows of equal count in ascending, or in descending,
    order of the name. *)
Definition count_descending (rows : list (nat * string)) : Prop :=
  StronglySorted (fun p q => fst q <= fst p) rows.

Definition count_desc_name_asc (rows : list (nat * string)) : Prop :=
  StronglySorted
    (fun p q =>
       fst q < fst p
       \/ (fst p = fst q /\ String.ltb (snd q) (snd p) = false))
    rows.

Definition count_desc_name_desc (rows : list (nat * string)) : Prop :=
  StronglySorted
    (fun p q =>
       fst q < fst p
       \/ (fst p = fst q /\ String.ltb (snd q) (snd p) = true))
    rows.

Definition is_empty (s : string) : bool :=
  match s with
  | EmptyString => true
  | String _ _ => false
  end.

(** ** The file stages

    A file is what iterating over it yields: its lines, each with its
    terminator, and then either the end of the file or a failure to read
    on.  The file system tells which paths a wildcard matches
    ([glob.iglob]) and which file, if any, [open] returns for a path. *)

Record file : Type := {
  file_lines : list string;
  file_broken : bool
}.

Record filesystem : Type := {
  fs_glob : string -> list string;
  fs_open : string -> option file
}.

Definition LF : ascii := ascii_of_nat 10.

(** The string ['\n']. *)
Definition nl : string := String LF EmptyString.

Definition char_in (c : ascii) (chars : string) : bool :=
  existsb (Ascii.eqb c) (list_ascii_of_string chars).

(** [line.rstrip(chars)]: the longest suffix made of characters of [chars]
    is dropped. *)
Fixpoint rstrip (line chars : string) : string :=
  match line with
  | EmptyString => EmptyString
  | String c rest =>
      match rstrip rest chars with
      | EmptyString =>
          if char_in c chars then EmptyString else String c EmptyString
      | String d r => String c (String d r)
      end
  end.

(** Every character of [s] is one of [chars]. *)
Definition all_in (s chars : string) : bool :=
  forallb (fun c => char_in c chars) (list_ascii_of_string s).

(** The last character of [s], if any, is one of [chars]. *)
Fixpoint ends_in (s chars : string) : bool :=
  match s with
  | EmptyString => false
  | String c EmptyString => char_in c chars
  | String _ rest => ends_in rest chars
  end.

Definition expand_wildcard (fs : filesystem) (wildcard : string)
  : list string :=
  fs_glob fs wildcard.

(** What a drained lazy sequence gave: the values it yielded and, if it
    ended by raising, the exception. *)
Definition stream (X A : Type) : Type := (list A * option X)%type.

(** [list(s)], as [sorted] and [Counter] do with their argument. *)
Definition list_of_stream {X A : Type} (s : stream X A) : result X (list A) :=
  match snd s with
  | Some e => raise e
  | None => ok (fst s)
  end.

Inductive io_event : Type :=
| EvOpen (path : string)
| EvClose (path : string).

(** The file handle held after [evs], starting with [held]; [None] when
    [evs] opens a file while one is held, or closes a file that is not the
    one held. *)
Fixpoint handle_after (evs : list io_event) (held : option string)
  : option (option string) :=
  match evs with
  | [] => Some held
  | EvOpen path :: evs' =>
      match held with
      | None => handle_after evs' (Some path)
      | Some _ => None
      end
  | EvClose path :: evs' =>
      match held with
      | Some path' =>
          if String.eqb path path' then handle_after evs' None else None
      | None => None
      end
  end.

Section Script.

Variable E : regex_engine.
Variable fs : filesystem.

(** The exceptions of the script: [re.error], and the failures of [open]
    and of reading from an open file. *)
Inductive exception : Type :=
| ExcRe (e : re_error E)
| ExcOpen (path : string)
| ExcRead (path : string).

(** *** [lines_from_paths]: the generator object *)

Inductive lines_state : Type :=
| LCreated (paths : list string)
| LReading (path : string) (pending : list string) (broken : bool)
           (paths : list string)
| LClosed.

Inductive lines_outcome : Type :=
| LYield (line : string)
| LStop
| LRaise (e : exception).

(** The loop [for path in paths], from its head up to the first [yield]:
    [with open(path) as f] opens the file and closes it when the block is
    left, whether by the end of the file or by an exception. *)
Fixpoint lines_advance (paths : list string)
  : list io_event * lines_outcome * lines_state :=
  match paths with
  | [] => ([], LStop, LClosed)
  | path :: rest =>
      match fs_open fs path with
      | None => ([], LRaise (ExcOpen path), LClosed)
      | Some f =>
          match file_lines f with
          | line :: pending =>
              ([EvOpen path], LYield (rstrip line nl),
               LReading path pending (file_broken f) rest)
          | [] =>
              if file_broken f
              then ([EvOpen path; EvClose path], LRaise (ExcRead path),
                    LClosed)
              else
                let '(evs, o, st) := lines_advance rest in
                (EvOpen path :: EvClose path :: evs, o, st)
          end
      end
  end.

(** [next(g)] *)
Definition lines_next (g : lines_state)
  : list io_event * lines_outcome * lines_state :=
  match g with
  | LCreated paths => lines_advance paths
  | LReading path (line :: pending) broken paths =>
      ([], LYield (rstrip line nl), LReading path pending broken paths)
  | LReading path [] broken paths =>
      if broken then ([EvClose path], LRaise (ExcRead path), LClosed)
      else
        let '(evs, o, st) := lines_advance paths in
        (EvClose path :: evs, o, st)
  | LClosed => ([], LStop, LClosed)
  end.

(** [g.close()]: a generator suspended inside the [with] block leaves it. *)
Definition lines_close (g : lines_state) : list io_event * lines_state :=
  match g with
  | LReading path _ _ _ => ([EvClose path], LClosed)
  | _ => ([], LClosed)
  end.

(** The file a generator holds open while it is suspended. *)
Definition held (g : lines_state) : option string :=
  match g with
  | LReading path _ _ _ => Some path
  | _ => None
  end.

(** [n] calls of [next], whatever they return. *)
Fixpoint lines_nexts (n : nat) (g : lines_state)
  : list io_event * list lines_outcome * lines_state :=
  match n with
  | O => ([], [], g)
  | S n' =>
      let '(evs, o, g') := lines_next g in
      let '(evs', os, g'') := lines_nexts n' g' in
      (evs ++ evs', o :: os, g'')
  end.

(** [list(g)], with the events on the way: [next] until it stops or raises;
    [None] when [fuel] calls were not enough. *)
Fixpoint lines_drain (fuel : nat) (g : lines_state)
  : option (list io_event * stream exception string) :=
  match fuel with
  | O => None
  | S fuel' =>
      match lines_next g with
      | (evs, LRaise e, _) => Some (evs, ([], Some e))
      | (evs, LStop, _) => Some (evs, ([], None))
      | (evs, LYield line, g') =>
          match lines_drain fuel' g' with
          | None => None
          | Some (evs', (lines, ending)) =>
              Some (evs ++ evs', (line :: lines, ending))
          end
      end
  end.

(** *** [lines_from_paths], drained *)

Fixpoint lines_from_paths (paths : list string) : stream exception string :=
  match paths with
  | [] => ([], None)
  | path :: rest =>
      match fs_open fs path with
      | None => ([], Some (ExcOpen path))
      | Some f =>
          let lines := map (fun line => rstrip line nl) (file_lines f) in
          if file_broken f then (lines, Some (ExcRead path))
          else
            let '(more, ending) := lines_from_paths rest in
            (lines ++ more, ending)
      end
  end.

(** The events of draining it. *)
Fixpoint lines_events (paths : list string) : list io_event :=
  match paths with
  | [] => []
  | path :: rest =>
      match fs_open fs path with
      | None => []
      | Some f =>
          EvOpen path :: EvClose path
          :: (if file_broken f then [] else lines_events rest)
      end
  end.

(** *** The later stages on a sequence that may raise

    [grep] compiles its pattern before it asks its input for anything; an
    exception of the input passes through [grep] and [search_and_replace]
    after the lines that came before it. *)

Definition grep_stream (string_list : stream exception string)
  (pattern : string) : stream exception string :=
  match re_compile E pattern with
  | inl e => ([], Some (ExcRe e))
  | inr compiled =>
      (grep_loop E compiled (fst string_list), snd string_list)
  end.

Definition search_and_replace_stream (strings_list : stream exception string)
  (search_term new_term : string) : stream exception string :=
  (search_and_replace (fst strings_list) search_term new_term,
   snd strings_list).

(** *** The script *)

Definition wildcard : string := "../*/*.py".

Definition script_driverA : result exception (list (nat * string)) :=
  let files := expand_wildcard fs wildcard in
  let lines := lines_from_paths files in
  let lines := grep_stream lines "^import" in
  let lines := search_and_replace_stream lines "import " "" in
  lines <- list_of_stream lines ;;
  let lines := sorted String.ltb false lines in
  let count_and_names := count_adjacent string_dec lines in
  let count_and_names := sorted tuple_lt true count_and_names in
  ok count_and_names.

Definition script_driverB : result exception (list (nat * string)) :=
  let files := expand_wildcard fs wildcard in
  let lines := lines_from_paths files in
  let lines := grep_stream lines "^import" in
  let lines := search_and_replace_stream lines "import " "" in
  counter <- (lines <- list_of_stream lines ;; ok (Counter lines)) ;;
  ok (map row_of (most_common counter)).

(** ['{} {}'.format(count, name)] *)
Definition format_row (row : nat * string) : string :=
  append (NilZero.string_of_uint (Nat.to_uint (fst row)))
         (append " " (snd row)).

(** ['\n'.join(... for count, name in rows)] *)
Definition report (rows : list (nat * string)) : string :=
  String.concat nl (map format_row rows).

Definition headerA : string :=
  String LF "--- Count using itertools.groupby".

Definition headerB : string :=
  String LF "--- Count using collections.Counter".

(** The [__main__] block: the arguments of the [print] calls it made, and
    the exception that ended it, if any.  Both halves see the same files. *)
Definition main : list string * option exception :=
  let out := [headerA] in
  match script_driverA with
  | inl e => (out, Some e)
  | inr count_and_names =>
      let out := out ++ [report count_and_names] in
      let out := out ++ [headerB] in
      match script_driverB with
      | inl e => (out, Some e)
      | inr rows => (out ++ [report rows], None)
      end
  end.

(** The lines of the file at [path], stripped; none when [open] fails. *)
Definition stripped_lines (path : string) : list string :=
  match fs_open fs path with
  | Some f => map (fun line => rstrip line nl) (file_lines f)
  | None => []
  end.

(** [open] succeeds and reading goes to the end of the file. *)
Definition readable (path : string) : Prop :=
  exists f, fs_open fs path = Some f /\ file_broken f = false.

End Script.

Arguments ExcRe {E}.
Arguments ExcOpen {E}.
Arguments ExcRead {E}.
Arguments LYield {E}.
Arguments LStop {E}.
Arguments LRaise {E}.

(** A file system with two readable files, for examples. *)
Definition sample_file : file :=
  {| file_lines := [append "import os" nl; append "x = 1" nl; "import sys"];
     file_broken := false |}.

Definition sample_fs : filesystem :=
  {| fs_glob := fun _ => ["a.py"; "b.py"];
     fs_open := fun path =>
                  if String.eqb path "a.py" then Some sample_file
                  else if String.eqb path "b.py"
                       then Some {| file_lines := [append "import os" nl];
                                    file_broken := false |}
                       else None |}.

(** A file system in which the second of two matched paths cannot be
    opened, for examples. *)
Definition holed_fs : filesystem :=
  {| fs_glob := fun _ => ["a.py"; "c.py"];
     fs_open := fs_open sample_fs |}.

(** * Properties *)

(** ** Strings *)

Lemma prefix_empty (s : string) : prefix "" s = true.
Proof. destruct s; reflexivity. Qed.

Lemma prefix_append (u rest : string) : prefix u (append u rest) = true.
Proof.
  induction u as [|c u IH]; simpl.
  - apply prefix_empty.
  - destruct (ascii_dec c c) as [_|n]; [exact IH | contradiction].
Qed.

Lemma contains_empty (s : string) : contains "" s = true.
Proof. destruct s; reflexivity. Qed.

Lemma append_empty_r (s : string) : append s "" = s.
Proof. induction s as [|c s IH]; simpl; [|rewrite IH]; reflexivity. Qed.

Lemma length_append (s t : string) :
  String.length (append s t) = String.length s + String.length t.
Proof. induction s as [|c s IH]; simpl; [|rewrite IH]; reflexivity. Qed.

Lemma replace_from_cons (old new : string) (c : ascii) (rest : string) :
  replace_from 0 old new (String c rest) =
  if prefix old (String c rest)
  then append new (replace_from (String.length old - 1) old new rest)
  else String c (replace_from 0 old new rest).
Proof. reflexivity. Qed.

(** Passing over the rest of a replaced occurrence. *)
Lemma replace_from_skip (old new u rest : string) :
  replace_from (String.length u) old new (append u rest) =
  replace_from 0 old new rest.
Proof.
  induction u as [|c u IH]; simpl.
  - destruct rest; reflexivity.
  - exact IH.
Qed.

(** The two equations of a left-to-right, non-overlapping replacement. *)
Lemma str_replace_occurrence (old new rest : string) :
  old <> "" ->
  str_replace (append old rest) old new = append new (str_replace rest old new).
Proof.
  destruct old as [|c old]; [congruence | intros _].
  unfold str_replace.
  change (append (String c old) rest) with (String c (append old rest)).
  rewrite replace_from_cons.
  change (String c (append old rest)) with (append (String c old) rest).
  rewrite prefix_append.
  replace (String.length (String c old) - 1) with (String.length old)
    by (simpl; lia).
  rewrite replace_from_skip. reflexivity.
Qed.

Lemma str_replace_no_occurrence_here (old new : string) (c : ascii)
  (rest : string) :
  old <> "" ->
  prefix old (String c rest) = false ->
  str_replace (String c rest) old new = String c (str_replace rest old new).
Proof.
  destruct old as [|d old]; [congruence | intros _ Hp].
  unfold str_replace. rewrite replace_from_cons, Hp. reflexivity.
Qed.

Lemma contains_cons (sub : string) (c : ascii) (rest : string) :
  contains sub (String c rest) = prefix sub (String c rest) || contains sub rest.
Proof. reflexivity. Qed.

Lemma replace_from_no_occurrence (old new line : string) :
  contains old line = false -> replace_from 0 old new line = line.
Proof.
  induction line as [|c rest IH]; intros H; [reflexivity|].
  rewrite contains_cons in H. apply orb_false_iff in H. destruct H as [Hp Hc].
  rewrite replace_from_cons, Hp, (IH Hc). reflexivity.
Qed.

Lemma str_replace_no_occurrence (line old new : string) :
  contains old line = false -> str_replace line old new = line.
Proof.
  intros H. destruct old as [|c old].
  - rewrite contains_empty in H. discriminate.
  - apply replace_from_no_occurrence. exact H.
Qed.

Lemma length_interleave (new line : string) :
  String.length (interleave new line) =
  String.length line + (S (String.length line)) * String.length new.
Proof.
  induction line as [|c rest IH]; simpl.
  - lia.
  - rewrite length_append. simpl. rewrite IH. lia.
Qed.

Lemma interleave_empty (line : string) : interleave "" line = line.
Proof. induction line as [|c rest IH]; simpl; [|rewrite IH]; reflexivity. Qed.

Lemma interleave_fixed (new line : string) :
  interleave new line = line <-> new = "".
Proof.
  split.
  - intros H. apply (f_equal String.length) in H.
    rewrite length_interleave in H.
    destruct new; [reflexivity | simpl in H; lia].
  - intros ->. apply interleave_empty.
Qed.

(** ** [search_and_replace] *)

Lemma search_and_replace_length (strings_list : list string)
  (search_term new_term : string) :
  List.length (search_and_replace strings_list search_term new_term) =
  List.length strings_list.
Proof. apply length_map. Qed.

Lemma search_and_replace_unchanged (strings_list : list string)
  (search_term new_term : string) :
  Forall (fun line => contains search_term line = false) strings_list ->
  search_and_replace strings_list search_term new_term = strings_list.
Proof.
  unfold search_and_replace.
  induction 1 as [|line rest Hline _ IH]; simpl.
  - reflexivity.
  - rewrite (str_replace_no_occurrence _ _ _ Hline), IH. reflexivity.
Qed.

(** C3, as stated, fails: with an empty search term the replacement is
    inserted around every character. *)
Lemma search_and_replace_empty_search_changes :
  search_and_replace ["abc"] "" "-" = ["-a-b-c-"]
  /\ search_and_replace ["abc"] "" "-" <> ["abc"].
Proof. split; [reflexivity | discriminate]. Qed.

(** C3 (amended): [search_and_replace] yields one string per input string
    whatever the arguments; with an empty search term each string comes out
    with the replacement inserted before every character and at the end, so
    the stage is a no-op exactly when the replacement is empty too (or there
    is no input). *)
Theorem search_and_replace_empty_search :
  (forall strings_list search_term new_term,
      List.length (search_and_replace strings_list search_term new_term) =
      List.length strings_list)
  /\ (forall strings_list new_term,
         search_and_replace strings_list "" new_term =
         map (interleave new_term) strings_list)
  /\ (forall strings_list new_term,
         search_and_replace strings_list "" new_term = strings_list <->
         new_term = "" \/ strings_list = []).
Proof.
  split; [exact search_and_replace_length|].
  split; [reflexivity|].
  intros strings_list new_term. unfold search_and_replace. simpl. split.
  - destruct strings_list as [|line rest]; [now right|].
    simpl. intros H. injection H as H _. left.
    apply (interleave_fixed new_term line). exact H.
  - intros [-> | ->]; [|reflexivity].
    induction strings_list as [|line rest IH]; simpl.
    + reflexivity.
    + rewrite interleave_empty, IH. reflexivity.
Qed.

Lemma search_and_replace_empty_search_witness :
  search_and_replace ["abc"; "de"] "" "" = ["abc"; "de"].
Proof.
  apply (proj2 (proj2 search_and_replace_empty_search) ["abc"; "de"] "").
  left. reflexivity.
Defined.

(** C9: for a non-empty search term, once the output of the replacer holds
    no occurrence of the search term a second pass with the same arguments
    changes nothing; and a string without an occurrence of the search term
    passes through unchanged, at its place in the sequence. *)
Theorem search_and_replace_idempotent :
  forall strings_list search_term new_term,
    search_term <> "" ->
    (Forall (fun line => contains search_term line = false)
            (search_and_replace strings_list search_term new_term) ->
     search_and_replace
       (search_and_replace strings_list search_term new_term)
       search_term new_term =
     search_and_replace strings_list search_term new_term)
    /\ (forall i line,
           nth_error strings_list i = Some line ->
           contains search_term line = false ->
           nth_error (search_and_replace strings_list search_term new_term) i =
           Some line).
Proof.
  intros strings_list search_term new_term _. split.
  - apply search_and_replace_unchanged.
  - intros i line Hi Hline. unfold search_and_replace.
    rewrite nth_error_map, Hi. simpl.
    rewrite (str_replace_no_occurrence _ _ _ Hline). reflexivity.
Qed.

Lemma search_and_replace_idempotent_witness :
  search_and_replace (search_and_replace ["import os"; "sys"] "import " "")
                     "import " "" =
  search_and_replace ["import os"; "sys"] "import " ""
  /\ nth_error (search_and_replace ["import os"; "sys"] "import " "") 1 =
     Some "sys".
Proof.
  destruct (search_and_replace_idempotent ["import os"; "sys"] "import " "")
    as [Htwice Hsame].
  - discriminate.
  - split.
    + apply Htwice. repeat constructor.
    + apply Hsame; reflexivity.
Defined.

(** ** [grep] *)

Lemma subseq_filter {A : Type} (f : A -> bool) (l : list A) :
  subseq (filter f l) l.
Proof.
  induction l as [|x l IH]; simpl.
  - constructor.
  - destruct (f x); constructor; exact IH.
Qed.

Lemma subseq_count_occ {A : Type} (dec : forall x y : A, {x = y} + {x <> y})
  (s l : list A) :
  subseq s l -> forall x, count_occ dec s x <= count_occ dec l x.
Proof.
  induction 1 as [|y s l _ IH|y s l _ IH]; intros x; simpl.
  - lia.
  - specialize (IH x). destruct (dec y x); lia.
  - specialize (IH x). destruct (dec y x); lia.
Qed.

Lemma subseq_In {A : Type} (s l : list A) :
  subseq s l -> forall x, In x s -> In x l.
Proof.
  induction 1 as [|y s l _ IH|y s l _ IH]; intros x; simpl; intuition.
Qed.

Lemma grep_compiled (E : regex_engine) (string_list : list string)
  (pattern : string) (compiled : re_pattern E) :
  re_compile E pattern = ok compiled ->
  grep E string_list pattern = ok (grep_loop E compiled string_list).
Proof. intros H. unfold grep. rewrite H. reflexivity. Qed.

Lemma grep_not_compiled (E : regex_engine) (string_list : list string)
  (pattern : string) (e : re_error E) :
  re_compile E pattern = raise e -> grep E string_list pattern = raise e.
Proof. intros H. unfold grep. rewrite H. reflexivity. Qed.

Lemma grep_ok_inv (E : regex_engine) (string_list : list string)
  (pattern : string) (matching : list string) :
  grep E string_list pattern = ok matching ->
  exists compiled,
    re_compile E pattern = ok compiled
    /\ matching = grep_loop E compiled string_list.
Proof.
  unfold grep. destruct (re_compile E pattern) as [e|compiled]; simpl.
  - discriminate.
  - intros H. exists compiled. split; [reflexivity|].
    unfold ok in H. congruence.
Qed.

(** C10: what [grep] yields is a subsequence of its input: the retained
    strings keep their relative order, none is yielded more often than it
    occurs in the input, and none is new. *)
Theorem grep_subsequence :
  forall (E : regex_engine) (string_list : list string) (pattern : string)
         (matching : list string),
    grep E string_list pattern = ok matching ->
    subseq matching string_list
    /\ (forall line,
           count_occ string_dec matching line <=
           count_occ string_dec string_list line)
    /\ (forall line, In line matching -> In line string_list).
Proof.
  intros E string_list pattern matching H.
  destruct (grep_ok_inv _ _ _ _ H) as [compiled [_ ->]].
  assert (Hs : subseq (grep_loop E compiled string_list) string_list)
    by apply subseq_filter.
  split; [exact Hs|]. split.
  - apply subseq_count_occ. exact Hs.
  - apply subseq_In. exact Hs.
Qed.

Lemma grep_subsequence_witness :
  subseq ["import os"; "import sys"]
         ["import os"; "from x import y"; "import sys"].
Proof.
  apply (grep_subsequence ReFragment.engine
           ["import os"; "from x import y"; "import sys"] "^import"
           ["import os"; "import sys"]).
  reflexivity.
Defined.

(** [ReFragment.search] looks for a match at every position of the string. *)
Lemma search_from_anywhere (r : ReFragment.regex) (s : string) :
  forall b,
    ReFragment.search_from r b s = true <->
    exists pre suf,
      s = append pre suf
      /\ ReFragment.match_regex r (b && is_empty pre) suf = true.
Proof.
  induction s as [|c s IH]; intros b; simpl.
  - rewrite orb_false_r. split.
    + intros H. exists "", "". rewrite andb_true_r. auto.
    + intros [pre [suf [Hs H]]].
      destruct pre; [|discriminate]. simpl in Hs. subst suf.
      rewrite andb_true_r in H. exact H.
  - rewrite orb_true_iff, IH. split.
    + intros [H | [pre [suf [Hs H]]]].
      * exists "", (String c s). rewrite andb_true_r. auto.
      * exists (String c pre), suf. subst s. rewrite andb_false_r.
        simpl in H. auto.
    + intros [pre [suf [Hs H]]]. destruct pre as [|c' pre]; simpl in Hs.
      * left. subst suf. rewrite andb_true_r in H. exact H.
      * right. injection Hs as _ Hs. exists pre, suf.
        rewrite andb_false_r in H. simpl. auto.
Qed.

(** C6: with a pattern that compiles, [grep] yields exactly the input
    strings that [re.search] accepts, in input order, and nothing on empty
    input; [re.search] accepts a string when the pattern matches at some
    position of it.  With [^import] only the lines that start with
    [import] are kept; with [import] a line holding it in the middle is kept
    too. *)
Theorem grep_search_semantics :
  (forall (E : regex_engine) (string_list : list string) (pattern : string)
          (compiled : re_pattern E),
      re_compile E pattern = ok compiled ->
      grep E string_list pattern =
      ok (filter (re_search E compiled) string_list)
      /\ (forall line matching,
             grep E string_list pattern = ok matching ->
             (In line matching <->
              In line string_list /\ re_search E compiled line = true))
      /\ grep E [] pattern = ok [])
  /\ (forall (r : ReFragment.regex) (line : string),
         re_search ReFragment.engine r line = true <->
         exists pre suf,
           line = append pre suf
           /\ ReFragment.match_regex r (is_empty pre) suf = true)
  /\ grep ReFragment.engine
          ["import os"; "from x import y"; "import sys"] "^import" =
     ok ["import os"; "import sys"]
  /\ grep ReFragment.engine ["from x import y"] "import" =
     ok ["from x import y"].
Proof.
  split; [|split; [|split; reflexivity]].
  - intros E string_list pattern compiled Hc.
    split; [|split].
    + apply grep_compiled. exact Hc.
    + intros line matching Hg.
      rewrite (grep_compiled _ _ _ _ Hc) in Hg.
      unfold ok, grep_loop in Hg. injection Hg as <-.
      apply filter_In.
    + rewrite (grep_compiled _ _ _ _ Hc). reflexivity.
  - intros r line. simpl. unfold ReFragment.search.
    rewrite search_from_anywhere. reflexivity.
Qed.

Lemma grep_search_semantics_witness :
  grep ReFragment.engine ["import os"; "x = 1"] "^import" =
  ok (filter (re_search ReFragment.engine
                [[(ReFragment.Bol, ReFragment.Once);
                  (ReFragment.Lit "i", ReFragment.Once);
                  (ReFragment.Lit "m", ReFragment.Once);
                  (ReFragment.Lit "p", ReFragment.Once);
                  (ReFragment.Lit "o", ReFragment.Once);
                  (ReFragment.Lit "r", ReFragment.Once);
                  (ReFragment.Lit "t", ReFragment.Once)]])
             ["import os"; "x = 1"]).
Proof.
  apply (proj1 grep_search_semantics ReFragment.engine
           ["import os"; "x = 1"] "^import").
  reflexivity.
Defined.

(** *** The generator object *)

Section GrepGenerator.

Variable E : regex_engine.

Lemma drain_suspended (compiled : re_pattern E) (string_list : list string) :
  forall fuel,
    List.length (grep_loop E compiled string_list) < fuel ->
    drain E fuel (Suspended compiled string_list) =
    Some (map EvExamine string_list, ok (grep_loop E compiled string_list)).
Proof.
  unfold grep_loop.
  induction string_list as [|line rest IH]; intros fuel Hfuel.
  - destruct fuel; [inversion Hfuel | reflexivity].
  - destruct fuel as [|fuel]; [inversion Hfuel|].
    simpl in Hfuel |- *.
    destruct (re_search E compiled line) eqn:Hline.
    + simpl in Hfuel. rewrite IH by lia. reflexivity.
    + specialize (IH (S fuel) Hfuel). simpl in IH.
      destruct (grep_resume E compiled rest) as [[evs o] st].
      destruct o as [l| |e].
      * destruct (drain E fuel st) as [[evs' r]|]; [|discriminate].
        injection IH as <- <-. reflexivity.
      * injection IH as <- <-. reflexivity.
      * discriminate.
Qed.

Lemma drain_created (compiled : re_pattern E) (string_list : list string)
  (pattern : string) :
  re_compile E pattern = ok compiled ->
  forall fuel,
    List.length (grep_loop E compiled string_list) < fuel ->
    drain E fuel (Created string_list pattern) =
    Some (EvCompile pattern :: map EvExamine string_list,
          ok (grep_loop E compiled string_list)).
Proof.
  intros Hc fuel Hfuel.
  pose proof (drain_suspended compiled string_list fuel Hfuel) as Hs.
  destruct fuel as [|fuel]; [inversion Hfuel|].
  simpl in Hs |- *. unfold ok in Hc. rewrite Hc.
  destruct (grep_resume E compiled string_list) as [[evs o] st].
  destruct o as [l| |e].
  - destruct (drain E fuel st) as [[evs' r]|]; [|discriminate].
    injection Hs as <- <-. reflexivity.
  - injection Hs as <- <-. reflexivity.
  - discriminate.
Qed.

(** Draining the generator gives [grep]. *)
Lemma grep_list_drains (string_list : list string) (pattern : string) :
  exists evs,
    drain E (S (List.length string_list)) (Created string_list pattern) =
    Some (evs, grep E string_list pattern).
Proof.
  destruct (re_compile E pattern) as [e|compiled] eqn:Hc.
  - exists [EvCompile pattern].
    rewrite (grep_not_compiled _ _ _ _ Hc). simpl. rewrite Hc. reflexivity.
  - eexists. rewrite (grep_compiled _ _ _ _ Hc).
    apply drain_created; [exact Hc|].
    unfold grep_loop. pose proof (filter_length_le (re_search E compiled) string_list).
    lia.
Qed.

Lemma filter_is_compile_examine (l : list string) :
  filter is_compile (map EvExamine l) = [].
Proof. induction l as [|x l IH]; simpl; [reflexivity | exact IH]. Qed.

Lemma examined_examine (l : list string) : examined (map EvExamine l) = l.
Proof.
  induction l as [|x l IH]; simpl; [reflexivity | rewrite IH; reflexivity].
Qed.

End GrepGenerator.

(** C4, as stated, fails: the call [grep(string_list, pattern)] with an
    invalid pattern returns a generator; the error is raised by the first
    [next]. *)
Lemma grep_invalid_pattern_not_raised_by_call :
  re_compile ReFragment.engine "*" =
  raise (ReFragment.ReError "nothing to repeat")
  /\ grep_call ReFragment.engine ["import os"] "*" <>
     raise (ReFragment.ReError "nothing to repeat")
  /\ grep_call ReFragment.engine ["import os"] "*" =
     ok (Created ["import os"] "*")
  /\ grep_next ReFragment.engine (Created ["import os"] "*") =
     ([EvCompile "*"],
      @Raise ReFragment.engine (ReFragment.ReError "nothing to repeat"),
      Closed).
Proof. repeat split; try reflexivity. discriminate. Qed.

(** C4 (amended): calling [grep] never raises and examines nothing.  The
    pattern is compiled by the first [next], and only there: an invalid
    pattern makes that first [next] raise the compile error before any input
    element is examined; otherwise draining the generator compiles exactly
    once, as the first event, examines every input element once and in order
    with that one compiled pattern, and yields the matching elements. *)
Theorem grep_compiles_once_at_first_next :
  forall (E : regex_engine) (string_list : list string) (pattern : string),
    grep_call E string_list pattern = ok (Created string_list pattern)
    /\ match re_compile E pattern with
       | inl e =>
           grep_next E (Created string_list pattern) =
           ([EvCompile pattern], Raise e, Closed)
           /\ grep E string_list pattern = raise e
       | inr compiled =>
           exists evs,
             drain E (S (List.length string_list))
                   (Created string_list pattern) =
             Some (EvCompile pattern :: evs,
                   ok (grep_loop E compiled string_list))
             /\ filter is_compile (EvCompile pattern :: evs) =
                [EvCompile pattern]
             /\ examined (EvCompile pattern :: evs) = string_list
       end.
Proof.
  intros E string_list pattern. split; [reflexivity|].
  destruct (re_compile E pattern) as [e|compiled] eqn:Hc.
  - split.
    + simpl. rewrite Hc. reflexivity.
    + apply grep_not_compiled. exact Hc.
  - exists (map EvExamine string_list). split; [|split].
    + apply drain_created; [exact Hc|].
      unfold grep_loop.
      pose proof (filter_length_le (re_search E compiled) string_list). lia.
    + simpl. rewrite filter_is_compile_examine. reflexivity.
    + simpl. apply examined_examine.
Qed.

(** ** [count_adjacent] *)

Section CountAdjacentFacts.

Variable A : Type.
Variable eq_dec : forall x y : A, {x = y} + {x <> y}.

Lemma repeat_snoc (x : A) (n : nat) (l : list A) :
  repeat x (n + 1) ++ l = repeat x n ++ x :: l.
Proof. rewrite repeat_app, <- app_assoc. reflexivity. Qed.

Lemma groupby_from_expands (iterable : list A) :
  forall target group,
    expand (map pair_of (groupby_from eq_dec target group iterable)) =
    repeat target (List.length group) ++ iterable.
Proof.
  induction iterable as [|x rest IH]; intros target group; simpl.
  - reflexivity.
  - destruct (eq_dec target x) as [<-|Hne].
    + rewrite IH, length_app. simpl. apply repeat_snoc.
    + simpl. rewrite IH. reflexivity.
Qed.

Lemma groupby_from_positive (iterable : list A) :
  forall target group,
    0 < List.length group ->
    Forall positive (map pair_of (groupby_from eq_dec target group iterable)).
Proof.
  induction iterable as [|x rest IH]; intros target group Hg; simpl.
  - constructor; [exact Hg | constructor].
  - destruct (eq_dec target x) as [<-|Hne].
    + apply IH. rewrite length_app. simpl. lia.
    + simpl. constructor; [exact Hg|]. apply IH. simpl. lia.
Qed.

Lemma groupby_from_head (iterable : list A) (target : A) (group : list A) :
  exists count rest,
    map pair_of (groupby_from eq_dec target group iterable) =
    (count, target) :: rest.
Proof.
  revert group. induction iterable as [|x l IH]; intros group; simpl.
  - eauto.
  - destruct (eq_dec target x) as [<-|Hne]; simpl; eauto.
Qed.

Lemma groupby_from_maximal (iterable : list A) :
  forall target group,
    runs_maximal (map pair_of (groupby_from eq_dec target group iterable)).
Proof.
  induction iterable as [|x rest IH]; intros target group; simpl.
  - auto.
  - destruct (eq_dec target x) as [<-|Hne].
    + apply IH.
    + specialize (IH x [x]).
      destruct (groupby_from_head rest x [x]) as [count [rest' Heq]].
      simpl. rewrite Heq in IH |- *. split; assumption.
Qed.

(** Reading back the expansion of well-formed pairs. *)
Lemma groupby_from_expand (rest : list (nat * A)) :
  forall x group k,
    Forall positive rest ->
    runs_maximal ((0, x) :: rest) ->
    map pair_of
        (groupby_from eq_dec x group (repeat x k ++ expand rest)) =
    (List.length group + k, x) :: rest.
Proof.
  induction rest as [|[m y] rest IH]; intros x group k Hpos Hmax;
    revert group; induction k as [|k IHk]; intros group.
  - simpl. rewrite Nat.add_0_r. reflexivity.
  - simpl. destruct (eq_dec x x) as [_|Hne]; [|contradiction].
    rewrite IHk, length_app. simpl. do 2 f_equal. lia.
  - inversion Hpos as [|? ? Hm Hpos']; subst. unfold positive in Hm.
    simpl in Hm. destruct m as [|m]; [inversion Hm|].
    destruct Hmax as [Hxy Hmax].
    simpl. destruct (eq_dec x y) as [Heq|_]; [contradiction|].
    simpl. rewrite Nat.add_0_r.
    rewrite (IH y [y] m Hpos' Hmax). reflexivity.
  - simpl. destruct (eq_dec x x) as [_|Hne]; [|contradiction].
    rewrite IHk, length_app. simpl. do 2 f_equal. lia.
Qed.

Lemma count_adjacent_expand (pairs : list (nat * A)) :
  Forall positive pairs -> runs_maximal pairs ->
  count_adjacent eq_dec (expand pairs) = pairs.
Proof.
  destruct pairs as [|[n x] rest]; intros Hpos Hmax; [reflexivity|].
  inversion Hpos as [|? ? Hn Hpos']; subst. unfold positive in Hn.
  simpl in Hn. destruct n as [|n]; [inversion Hn|].
  unfold count_adjacent. simpl.
  rewrite (groupby_from_expand rest x [x] n Hpos').
  - reflexivity.
  - exact Hmax.
Qed.

Lemma expand_count_adjacent (iterable : list A) :
  expand (count_adjacent eq_dec iterable) = iterable.
Proof.
  destruct iterable as [|x rest]; [reflexivity|].
  unfold count_adjacent. simpl groupby.
  rewrite groupby_from_expands. reflexivity.
Qed.

Lemma count_adjacent_positive (iterable : list A) :
  Forall (fun p => 0 < fst p) (count_adjacent eq_dec iterable).
Proof.
  destruct iterable as [|x rest]; [constructor|].
  unfold count_adjacent. simpl groupby.
  apply groupby_from_positive. simpl. lia.
Qed.

Lemma count_adjacent_maximal (iterable : list A) :
  runs_maximal (count_adjacent eq_dec iterable).
Proof.
  destruct iterable as [|x rest]; [exact I|].
  unfold count_adjacent. simpl groupby.
  apply groupby_from_maximal.
Qed.

Lemma count_occ_expand (pairs : list (nat * A)) (x : A) :
  count_occ eq_dec (expand pairs) x = count_for eq_dec x pairs.
Proof.
  unfold count_for.
  induction pairs as [|[n y] rest IH]; simpl; [reflexivity|].
  rewrite count_occ_app, IH.
  destruct (eq_dec y x) as [<-|Hne]; simpl.
  - rewrite count_occ_repeat_eq by reflexivity. reflexivity.
  - rewrite count_occ_repeat_neq by congruence. reflexivity.
Qed.

Lemma length_expand (pairs : list (nat * A)) :
  List.length (expand pairs) = list_sum (map fst pairs).
Proof.
  induction pairs as [|[n y] rest IH]; simpl; [reflexivity|].
  rewrite length_app, repeat_length, IH. reflexivity.
Qed.

End CountAdjacentFacts.

(** C1: the pairs [count_adjacent] yields are exactly the maximal runs of the
    input, in order: they are the one list of pairs with positive counts and
    differing neighbours whose expansion (each element repeated [count]
    times, in order) is the input.  On [a a a b c c] they are
    [(3,a) (1,b) (2,c)]. *)
Theorem count_adjacent_runs :
  (forall (A : Type) (eq_dec : forall x y : A, {x = y} + {x <> y})
          (iterable : list A) (pairs : list (nat * A)),
      count_adjacent eq_dec iterable = pairs <->
      expand pairs = iterable
      /\ Forall (fun p => 0 < fst p) pairs
      /\ runs_maximal pairs)
  /\ count_adjacent string_dec ["a"; "a"; "a"; "b"; "c"; "c"] =
     [(3, "a"); (1, "b"); (2, "c")].
Proof.
  split; [|reflexivity].
  intros A eq_dec iterable pairs. split.
  - intros <-. split; [|split].
    + apply expand_count_adjacent.
    + apply count_adjacent_positive.
    + apply count_adjacent_maximal.
  - intros [<- [Hpos Hmax]]. apply count_adjacent_expand; assumption.
Qed.

Lemma count_adjacent_runs_witness :
  count_adjacent string_dec ["x"; "x"; "y"] = [(2, "x"); (1, "y")].
Proof.
  apply (proj1 count_adjacent_runs string string_dec
           ["x"; "x"; "y"] [(2, "x"); (1, "y")]).
  split; [reflexivity|]. split.
  - repeat constructor.
  - simpl. repeat split. discriminate.
Defined.

(** C5: in the output of [count_adjacent] the counts of the pairs carrying an
    element add up to the number of occurrences of that element in the
    input, and all counts add up to the length of the input. *)
Theorem count_adjacent_sums :
  forall (A : Type) (eq_dec : forall x y : A, {x = y} + {x <> y})
         (iterable : list A),
    (forall x,
        count_for eq_dec x (count_adjacent eq_dec iterable) =
        count_occ eq_dec iterable x)
    /\ list_sum (map fst (count_adjacent eq_dec iterable)) =
       List.length iterable.
Proof.
  intros A eq_dec iterable. split.
  - intros x. rewrite <- count_occ_expand, expand_count_adjacent. reflexivity.
  - rewrite <- length_expand, expand_count_adjacent. reflexivity.
Qed.

(** ** [sorted] *)

Lemma StronglySorted_app {A : Type} (R : A -> A -> Prop) (l1 l2 : list A) :
  StronglySorted R l1 -> StronglySorted R l2 ->
  (forall x y, In x l1 -> In y l2 -> R x y) ->
  StronglySorted R (l1 ++ l2).
Proof.
  induction 1 as [|x l1 _ IH Hx]; intros H2 H12; simpl.
  - exact H2.
  - constructor.
    + apply IH; [exact H2|]. intros a b Ha Hb. apply H12; simpl; auto.
    + apply Forall_app. split; [exact Hx|].
      apply Forall_forall. intros b Hb. apply H12; simpl; auto.
Qed.

Lemma StronglySorted_rev {A : Type} (R : A -> A -> Prop) (l : list A) :
  StronglySorted R l -> StronglySorted (fun x y => R y x) (rev l).
Proof.
  induction 1 as [|x l _ IH Hx]; simpl.
  - constructor.
  - apply StronglySorted_app; [exact IH | repeat constructor |].
    intros a b Ha [<-|[]]. rewrite Forall_forall in Hx.
    apply Hx. apply in_rev. exact Ha.
Qed.

Lemma StronglySorted_weaken {A : Type} (R R' : A -> A -> Prop) (l : list A) :
  (forall x y, In x l -> In y l -> R x y -> R' x y) ->
  StronglySorted R l -> StronglySorted R' l.
Proof.
  intros HR H. induction H as [|x l _ IH Hx].
  - constructor.
  - constructor.
    + apply IH. intros a b Ha Hb. apply HR; simpl; auto.
    + rewrite Forall_forall in *. intros y Hy.
      apply HR; simpl; auto.
Qed.

Lemma StronglySorted_NoDup {A : Type} (R : A -> A -> Prop) (l : list A) :
  (forall x, ~ R x x) -> StronglySorted R l -> NoDup l.
Proof.
  intros Hirr. induction 1 as [|x l _ IH Hx]; constructor.
  - intros Hin. rewrite Forall_forall in Hx. exact (Hirr x (Hx x Hin)).
  - exact IH.
Qed.

Section SortFacts.

Variable A : Type.
Variable lt : A -> A -> bool.

Lemma insert_perm (x : A) (l : list A) : Permutation (insert lt x l) (x :: l).
Proof.
  induction l as [|y l IH]; simpl.
  - apply Permutation_refl.
  - destruct (lt y x).
    + eapply perm_trans; [apply perm_skip, IH | apply perm_swap].
    + apply Permutation_refl.
Qed.

Lemma sort_perm (l : list A) : Permutation (sort lt l) l.
Proof.
  induction l as [|x l IH]; simpl.
  - constructor.
  - eapply perm_trans; [apply insert_perm | apply perm_skip, IH].
Qed.

Lemma sorted_perm (reverse : bool) (l : list A) :
  Permutation (sorted lt reverse l) l.
Proof.
  destruct reverse; simpl.
  - eapply perm_trans; [symmetry; apply Permutation_rev|].
    eapply perm_trans; [apply sort_perm|].
    symmetry. apply Permutation_rev.
  - apply sort_perm.
Qed.

(** *** Stability: elements that do not compare keep their order *)

Section Stable.

Variable P : A -> bool.
Hypothesis P_unordered :
  forall x y, P x = true -> P y = true -> lt x y = false.

Lemma filter_insert (x : A) (l : list A) :
  filter P (insert lt x l) = filter P (x :: l).
Proof.
  induction l as [|y l IH]; [reflexivity|].
  simpl insert. destruct (lt y x) eqn:Hyx; [|reflexivity].
  simpl in IH |- *. rewrite IH.
  destruct (P x) eqn:Hx; [|reflexivity].
  destruct (P y) eqn:Hy; [|reflexivity].
  rewrite (P_unordered y x Hy Hx) in Hyx. discriminate.
Qed.

Lemma filter_sort (l : list A) : filter P (sort lt l) = filter P l.
Proof.
  induction l as [|x l IH]; [reflexivity|].
  simpl sort. rewrite filter_insert. simpl. rewrite IH. reflexivity.
Qed.

Lemma filter_sorted (reverse : bool) (l : list A) :
  filter P (sorted lt reverse l) = filter P l.
Proof.
  destruct reverse; simpl.
  - rewrite filter_rev, filter_sort, filter_rev, rev_involutive.
    reflexivity.
  - apply filter_sort.
Qed.

End Stable.

(** *** Order *)

Section Ordered.

Hypothesis lt_asym : forall x y, lt x y = true -> lt y x = false.
Hypothesis le_trans :
  forall x y z, lt y x = false -> lt z y = false -> lt z x = false.

Lemma insert_sorted (x : A) (l : list A) :
  StronglySorted (fun a b => lt b a = false) l ->
  StronglySorted (fun a b => lt b a = false) (insert lt x l).
Proof.
  induction 1 as [|y l Hl IH Hy]; simpl.
  - repeat constructor.
  - destruct (lt y x) eqn:Hyx.
    + constructor; [exact IH|].
      apply Forall_forall. intros z Hz.
      apply (Permutation_in _ (insert_perm x l)) in Hz.
      destruct Hz as [<-|Hz].
      * apply lt_asym. exact Hyx.
      * rewrite Forall_forall in Hy. apply Hy. exact Hz.
    + constructor; [constructor; assumption|].
      constructor; [exact Hyx|].
      apply Forall_forall. intros z Hz.
      rewrite Forall_forall in Hy. specialize (Hy z Hz).
      simpl in *. eapply le_trans; eassumption.
Qed.

Lemma sort_sorted (l : list A) :
  StronglySorted (fun a b => lt b a = false) (sort lt l).
Proof.
  induction l as [|x l IH]; simpl.
  - constructor.
  - apply insert_sorted. exact IH.
Qed.

(** [sorted(l, reverse=True)]: no element is smaller than a later one. *)
Lemma sorted_reverse_sorted (l : list A) :
  StronglySorted (fun x y => lt x y = false) (sorted lt true l).
Proof.
  simpl.
  apply (StronglySorted_rev (fun a b => lt b a = false)). apply sort_sorted.
Qed.

End Ordered.

End SortFacts.

(** *** The orders the script sorts by *)

Lemma string_ltb_asym (x y : string) :
  String.ltb x y = true -> String.ltb y x = false.
Proof.
  unfold String.ltb. rewrite (String.compare_antisym y x).
  destruct (String.compare x y); simpl; congruence.
Qed.

Lemma string_ltb_lt (x y : string) :
  String.ltb x y = true <-> String_as_OT.lt x y.
Proof.
  rewrite <- String_as_OT.cmp_lt. unfold String_as_OT.cmp, String.ltb.
  destruct (String.compare x y); split; congruence.
Qed.

Lemma string_ltb_total (x y : string) :
  String.ltb x y = false -> String.ltb y x = false -> x = y.
Proof.
  unfold String.ltb. rewrite (String.compare_antisym y x).
  destruct (String.compare x y) eqn:Hc; simpl; try congruence.
  intros _ _. apply String.compare_eq_iff. exact Hc.
Qed.

Lemma string_ltb_irrefl (x : string) : String.ltb x x = false.
Proof.
  destruct (String.ltb x x) eqn:H; [|reflexivity].
  pose proof (string_ltb_asym _ _ H). congruence.
Qed.

Lemma string_ltb_trans (x y z : string) :
  String.ltb x y = true -> String.ltb y z = true -> String.ltb x z = true.
Proof.
  rewrite !string_ltb_lt. apply String_as_OT.lt_trans.
Qed.

Lemma string_le_trans (x y z : string) :
  String.ltb y x = false -> String.ltb z y = false -> String.ltb z x = false.
Proof.
  intros Hyx Hzy. destruct (String.ltb z x) eqn:Hzx; [|reflexivity].
  destruct (String.ltb x y) eqn:Hxy.
  - rewrite (string_ltb_trans _ _ _ Hzx Hxy) in Hzy. discriminate.
  - rewrite (string_ltb_total _ _ Hxy Hyx) in Hzx. congruence.
Qed.

Lemma tuple_lt_true (p q : nat * string) :
  tuple_lt p q = true <->
  fst p < fst q \/ (fst p = fst q /\ String.ltb (snd p) (snd q) = true).
Proof.
  unfold tuple_lt.
  destruct (Nat.eqb_spec (fst p) (fst q)) as [He|Hne]; simpl.
  - destruct (String.eqb_spec (snd p) (snd q)) as [Hs|Hs]; simpl.
    + rewrite Hs, string_ltb_irrefl. split; [discriminate|].
      intros [H|[_ H]]; [lia | discriminate].
    + split; [auto|]. intros [H|[_ H]]; [lia | exact H].
  - rewrite Nat.ltb_lt. split; [auto|]. intros [H|[H _]]; [exact H | lia].
Qed.

Lemma tuple_lt_false (p q : nat * string) :
  tuple_lt p q = false <->
  fst q < fst p \/ (fst p = fst q /\ String.ltb (snd p) (snd q) = false).
Proof.
  destruct (tuple_lt p q) eqn:H.
  - apply tuple_lt_true in H. split; [discriminate|].
    intros [H'|[He H']]; destruct H as [H|[He' H]]; try lia; congruence.
  - split; [intros _|reflexivity].
    destruct (Nat.lt_trichotomy (fst p) (fst q)) as [Hl|[He|Hg]].
    + assert (tuple_lt p q = true) by (apply tuple_lt_true; auto). congruence.
    + right. split; [exact He|].
      destruct (String.ltb (snd p) (snd q)) eqn:Hs; [|reflexivity].
      assert (tuple_lt p q = true) by (apply tuple_lt_true; auto). congruence.
    + auto.
Qed.

Lemma tuple_lt_asym (p q : nat * string) :
  tuple_lt p q = true -> tuple_lt q p = false.
Proof.
  rewrite tuple_lt_true, tuple_lt_false.
  intros [H|[He H]]; [auto|]. right. split; [congruence|].
  apply string_ltb_asym. exact H.
Qed.

Lemma tuple_le_trans (p q r : nat * string) :
  tuple_lt q p = false -> tuple_lt r q = false -> tuple_lt r p = false.
Proof.
  rewrite !tuple_lt_false.
  intros [H1|[E1 H1]] [H2|[E2 H2]]; try (left; lia).
  right. split; [congruence|]. eapply string_le_trans; eassumption.
Qed.

Lemma tuple_lt_total (p q : nat * string) :
  tuple_lt p q = false -> tuple_lt q p = false -> p = q.
Proof.
  rewrite !tuple_lt_false.
  intros [H1|[E1 H1]] [H2|[E2 H2]]; try lia.
  destruct p, q; simpl in *. f_equal; [exact E1|].
  apply string_ltb_total; assumption.
Qed.

Lemma key_lt_asym {A : Type} (key : A -> nat) (x y : A) :
  key_lt key x y = true -> key_lt key y x = false.
Proof. unfold key_lt. rewrite Nat.ltb_lt, Nat.ltb_ge. lia. Qed.

Lemma key_le_trans {A : Type} (key : A -> nat) (x y z : A) :
  key_lt key y x = false -> key_lt key z y = false -> key_lt key z x = false.
Proof. unfold key_lt. rewrite !Nat.ltb_ge. lia. Qed.

(** ** [collections.Counter] *)

Lemma filter_filter {A : Type} (p q : A -> bool) (l : list A) :
  filter p (filter q l) = filter (fun x => q x && p x) l.
Proof.
  induction l as [|x l IH]; simpl; [reflexivity|].
  destruct (q x); simpl; [destruct (p x)|]; rewrite IH; reflexivity.
Qed.

Lemma dict_has_In {V : Type} (d : dict V) (k : string) :
  dict_has d k = true <-> In k (dict_keys d).
Proof.
  unfold dict_has. rewrite existsb_exists. split.
  - intros [k' [Hin Heq]]. apply String.eqb_eq in Heq. subst. exact Hin.
  - intros Hin. exists k. split; [exact Hin | apply String.eqb_refl].
Qed.

Lemma dict_get_set {V : Type} (d : dict V) (k k' : string) (v default : V) :
  dict_get (dict_set d k v) k' default =
  if String.eqb k k' then v else dict_get d k' default.
Proof.
  induction d as [|[k0 v0] d IH]; simpl.
  - reflexivity.
  - destruct (String.eqb_spec k0 k) as [->|Hne]; simpl.
    + destruct (String.eqb k k'); reflexivity.
    + rewrite IH. destruct (String.eqb_spec k0 k') as [->|Hne'].
      * apply String.eqb_neq in Hne. rewrite String.eqb_sym, Hne.
        reflexivity.
      * reflexivity.
Qed.

Lemma dict_get_absent {V : Type} (d : dict V) (k : string) (default : V) :
  dict_has d k = false -> dict_get d k default = default.
Proof.
  unfold dict_has, dict_keys.
  induction d as [|[k0 v0] d IH]; simpl; [reflexivity|].
  intros H. apply orb_false_iff in H. destruct H as [Hk Hd].
  rewrite String.eqb_sym, Hk. apply IH. exact Hd.
Qed.

Lemma dict_keys_set {V : Type} (d : dict V) (k : string) (v : V) :
  dict_keys (dict_set d k v) =
  if dict_has d k then dict_keys d else dict_keys d ++ [k].
Proof.
  unfold dict_has, dict_keys.
  induction d as [|[k0 v0] d IH]; simpl; [reflexivity|].
  rewrite (String.eqb_sym k k0).
  destruct (String.eqb k0 k); simpl; [reflexivity|].
  rewrite IH. destruct (existsb (String.eqb k) (map fst d)); reflexivity.
Qed.

Lemma dict_keys_set_NoDup {V : Type} (d : dict V) (k : string) (v : V) :
  NoDup (dict_keys d) -> NoDup (dict_keys (dict_set d k v)).
Proof.
  intros Hd. rewrite dict_keys_set.
  destruct (dict_has d k) eqn:Hk; [exact Hd|].
  apply NoDup_app; [exact Hd | repeat constructor; auto |].
  intros x Hx [<-|[]]. apply dict_has_In in Hx. congruence.
Qed.

(** A dict with distinct keys is determined by its keys and lookups. *)
Lemma dict_items {V : Type} (d : dict V) (default : V) :
  NoDup (dict_keys d) ->
  d = map (fun k => (k, dict_get d k default)) (dict_keys d).
Proof.
  unfold dict_keys.
  induction d as [|[k0 v0] d IH]; simpl; intros Hd; [reflexivity|].
  inversion Hd as [|? ? Hk0 Hd']; subst.
  rewrite String.eqb_refl. f_equal.
  rewrite (IH Hd') at 1. apply map_ext_in.
  intros k Hk. destruct (String.eqb_spec k0 k) as [->|_]; [contradiction|].
  reflexivity.
Qed.

Lemma first_seen_In (l : list string) (x : string) :
  In x (first_seen l) <-> In x l.
Proof.
  induction l as [|y l IH]; simpl; [reflexivity|].
  rewrite filter_In, IH. split.
  - intros [H|[H _]]; auto.
  - intros [H|H]; [auto|].
    destruct (String.eqb_spec y x) as [->|Hne]; auto.
Qed.

Lemma first_seen_NoDup (l : list string) : NoDup (first_seen l).
Proof.
  induction l as [|y l IH]; simpl; constructor.
  - rewrite filter_In. intros [_ H]. rewrite String.eqb_refl in H.
    discriminate.
  - apply NoDup_filter. exact IH.
Qed.

Lemma counter_update_get (iterable : list string) :
  forall (d : dict nat) (k : string),
    dict_get (counter_update d iterable) k 0 =
    dict_get d k 0 + count_occ string_dec iterable k.
Proof.
  unfold counter_update.
  induction iterable as [|x rest IH]; intros d k; simpl.
  - lia.
  - rewrite IH, dict_get_set.
    destruct (string_dec x k) as [->|Hne].
    + rewrite String.eqb_refl. lia.
    + apply String.eqb_neq in Hne. rewrite Hne. lia.
Qed.

Lemma counter_update_keys (iterable : list string) :
  forall d : dict nat,
    dict_keys (counter_update d iterable) =
    dict_keys d ++ filter (fun x => negb (dict_has d x)) (first_seen iterable).
Proof.
  unfold counter_update.
  induction iterable as [|x rest IH]; intros d; simpl.
  - rewrite app_nil_r. reflexivity.
  - rewrite IH, dict_keys_set.
    destruct (dict_has d x) eqn:Hx; simpl.
    + f_equal. rewrite filter_filter. apply filter_ext. intros y.
      unfold dict_has at 1. rewrite dict_keys_set, Hx. fold (dict_has d y).
      destruct (String.eqb_spec x y) as [<-|_]; simpl;
        [rewrite Hx|]; reflexivity.
    + rewrite <- app_assoc. simpl. do 2 f_equal.
      rewrite filter_filter. apply filter_ext. intros y.
      unfold dict_has at 1. rewrite dict_keys_set, Hx, existsb_app.
      fold (dict_has d y). simpl. rewrite orb_false_r, negb_orb.
      rewrite (String.eqb_sym y x). apply andb_comm.
Qed.

Lemma counter_update_NoDup (iterable : list string) :
  forall d : dict nat,
    NoDup (dict_keys d) -> NoDup (dict_keys (counter_update d iterable)).
Proof.
  unfold counter_update.
  induction iterable as [|x rest IH]; intros d Hd; simpl.
  - exact Hd.
  - apply IH. apply dict_keys_set_NoDup. exact Hd.
Qed.

(** The tally: every distinct element with its number of occurrences, in
    order of first appearance. *)
Lemma Counter_items (iterable : list string) :
  Counter iterable =
  map (fun x => (x, count_occ string_dec iterable x)) (first_seen iterable).
Proof.
  unfold Counter.
  rewrite (dict_items (counter_update [] iterable) 0)
    by (apply counter_update_NoDup; constructor).
  rewrite counter_update_keys. simpl.
  rewrite filter_true.
  apply map_ext. intros k. rewrite counter_update_get. reflexivity.
Qed.

(** ** Runs of a sorted sequence *)

Lemma StronglySorted_app_inv {A : Type} (R : A -> A -> Prop) (l1 l2 : list A) :
  StronglySorted R (l1 ++ l2) ->
  StronglySorted R l2 /\ (forall a b, In a l1 -> In b l2 -> R a b).
Proof.
  induction l1 as [|x l1 IH]; simpl; intros H.
  - split; [exact H | intros a b []].
  - inversion H as [|? ? Hs Hx]; subst.
    destruct (IH Hs) as [H2 H12]. split; [exact H2|].
    intros a b [<-|Ha] Hb.
    + rewrite Forall_forall in Hx. apply Hx. apply in_or_app. auto.
    + apply H12; assumption.
Qed.

Lemma StronglySorted_strict {A : Type} (R : A -> A -> Prop) (l : list A) :
  StronglySorted R l -> NoDup l ->
  StronglySorted (fun x y => R x y /\ x <> y) l.
Proof.
  induction 1 as [|x l _ IH Hx]; intros Hnd; constructor.
  - apply IH. inversion Hnd. assumption.
  - inversion Hnd as [|? ? Hnotin _]; subst.
    rewrite Forall_forall in *. intros y Hy. split; [auto|].
    intros ->. contradiction.
Qed.

Lemma StronglySorted_map {A B : Type} (f : A -> B) (R : B -> B -> Prop)
  (l : list A) :
  StronglySorted (fun x y => R (f x) (f y)) l -> StronglySorted R (map f l).
Proof.
  induction 1 as [|x l _ IH Hx]; simpl; constructor.
  - exact IH.
  - apply Forall_map. exact Hx.
Qed.

Lemma in_expand {A : Type} (pairs : list (nat * A)) (x : A) :
  In x (expand pairs) <-> exists n, In (n, x) pairs /\ 0 < n.
Proof.
  unfold expand. rewrite in_flat_map. split.
  - intros [[n y] [Hin Hx]]. apply repeat_spec in Hx as Heq. subst y.
    exists n. split; [exact Hin|]. destruct n; [inversion Hx | lia].
  - intros [n [Hin Hn]]. exists (n, x). split; [exact Hin|].
    destruct n; [inversion Hn | simpl; auto].
Qed.

Lemma count_for_cons {A : Type} (eq_dec : forall x y : A, {x = y} + {x <> y})
  (x y : A) (m : nat) (rest : list (nat * A)) :
  count_for eq_dec x ((m, y) :: rest) =
  (if eq_dec y x then m else 0) + count_for eq_dec x rest.
Proof. unfold count_for. simpl. destruct (eq_dec y x); reflexivity. Qed.

Lemma count_for_absent {A : Type} (eq_dec : forall x y : A, {x = y} + {x <> y})
  (x : A) (pairs : list (nat * A)) :
  ~ In x (map snd pairs) -> count_for eq_dec x pairs = 0.
Proof.
  induction pairs as [|[m y] rest IH]; intros Hx; [reflexivity|].
  rewrite count_for_cons. simpl in Hx.
  destruct (eq_dec y x) as [->|_]; [tauto|]. apply IH. tauto.
Qed.

Lemma count_for_NoDup {A : Type} (eq_dec : forall x y : A, {x = y} + {x <> y})
  (pairs : list (nat * A)) (n : nat) (x : A) :
  NoDup (map snd pairs) -> In (n, x) pairs -> count_for eq_dec x pairs = n.
Proof.
  induction pairs as [|[m y] rest IH]; simpl; intros Hnd Hin; [contradiction|].
  inversion Hnd as [|? ? Hy Hnd']; subst. rewrite count_for_cons.
  destruct Hin as [Heq|Hin].
  - injection Heq as -> ->.
    destruct (eq_dec x x) as [_|Hne]; [|contradiction].
    rewrite (count_for_absent eq_dec x rest Hy). lia.
  - destruct (eq_dec y x) as [->|_].
    + exfalso. apply Hy. apply (in_map snd) in Hin. exact Hin.
    + rewrite (IH Hnd' Hin). reflexivity.
Qed.

(** The runs of an ascending sequence carry strictly ascending elements. *)
Lemma runs_of_sorted (pairs : list (nat * string)) :
  Forall (fun p => 0 < fst p) pairs ->
  runs_maximal pairs ->
  StronglySorted (fun a b => String.ltb b a = false) (expand pairs) ->
  StronglySorted (fun a b => String.ltb a b = true) (map snd pairs).
Proof.
  induction pairs as [|[n x] rest IH]; intros Hpos Hmax Hs; simpl.
  - constructor.
  - inversion Hpos as [|? ? Hn Hpos']; subst. simpl in Hn.
    destruct Hmax as [Hhead Hmax].
    simpl in Hs. apply StronglySorted_app_inv in Hs. destruct Hs as [Hs Hle].
    specialize (IH Hpos' Hmax Hs).
    constructor; [exact IH|].
    destruct rest as [|[m y] rest']; [constructor|].
    assert (Hxy : String.ltb x y = true).
    { destruct (String.ltb x y) eqn:Hlt; [reflexivity|]. exfalso.
      apply Hhead. apply string_ltb_total; [exact Hlt|].
      apply Hle.
      - destruct n; [inversion Hn | simpl; auto].
      - apply in_expand. exists m. split; [simpl; auto|].
        inversion Hpos'; assumption. }
    simpl. constructor; [exact Hxy|].
    simpl in IH. inversion IH as [|? ? _ Hy]; subst.
    eapply Forall_impl; [|exact Hy].
    intros z Hz. eapply string_ltb_trans; eassumption.
Qed.

Lemma sort_strings_sorted (lines : list string) :
  StronglySorted (fun a b => String.ltb b a = false) (sort String.ltb lines).
Proof. apply sort_sorted; [exact string_ltb_asym | exact string_le_trans]. Qed.

Lemma count_adjacent_sorted_names (lines : list string) :
  StronglySorted (fun a b => String.ltb a b = true)
    (map snd (count_adjacent string_dec (sort String.ltb lines))).
Proof.
  apply runs_of_sorted.
  - apply count_adjacent_positive.
  - apply count_adjacent_maximal.
  - rewrite expand_count_adjacent. apply sort_strings_sorted.
Qed.

Lemma count_adjacent_sorted_names_NoDup (lines : list string) :
  NoDup (map snd (count_adjacent string_dec (sort String.ltb lines))).
Proof.
  eapply StronglySorted_NoDup; [|apply count_adjacent_sorted_names].
  intros x H. simpl in H. rewrite string_ltb_irrefl in H. discriminate.
Qed.

Lemma count_adjacent_sorted_In (lines : list string) (n : nat) (x : string) :
  In (n, x) (count_adjacent string_dec (sort String.ltb lines)) <->
  0 < n /\ n = count_occ string_dec lines x.
Proof.
  set (pairs := count_adjacent string_dec (sort String.ltb lines)).
  assert (Hcount : forall y,
             count_occ string_dec lines y = count_for string_dec y pairs).
  { intros y. unfold pairs. rewrite <- count_occ_expand, expand_count_adjacent.
    apply Permutation_count_occ. symmetry. apply sort_perm. }
  split.
  - intros Hin. split.
    + pose proof (count_adjacent_positive _ string_dec
                    (sort String.ltb lines)) as Hpos.
      rewrite Forall_forall in Hpos. apply (Hpos _ Hin).
    + rewrite Hcount. symmetry. apply count_for_NoDup; [|exact Hin].
      apply count_adjacent_sorted_names_NoDup.
  - intros [Hn ->].
    assert (Hx : In x (expand pairs)).
    { unfold pairs. rewrite expand_count_adjacent.
      apply (Permutation_in _ (Permutation_sym (sort_perm _ _ lines))).
      apply (count_occ_In string_dec). lia. }
    apply in_expand in Hx. destruct Hx as [m [Hin _]].
    replace (count_occ string_dec lines x) with m; [exact Hin|].
    rewrite Hcount. symmetry. apply count_for_NoDup; [|exact Hin].
    apply count_adjacent_sorted_names_NoDup.
Qed.

Lemma Counter_rows_In (lines : list string) (n : nat) (x : string) :
  In (n, x) (map row_of (Counter lines)) <->
  0 < n /\ n = count_occ string_dec lines x.
Proof.
  rewrite Counter_items, map_map. simpl. rewrite in_map_iff. split.
  - intros [y [Heq Hy]]. injection Heq as <- <-.
    apply (proj1 (first_seen_In _ _)) in Hy. split; [|reflexivity].
    apply (count_occ_In string_dec). exact Hy.
  - intros [Hn ->]. exists x. split; [reflexivity|].
    apply first_seen_In. apply (count_occ_In string_dec). lia.
Qed.

Lemma Counter_rows_NoDup (lines : list string) :
  NoDup (map row_of (Counter lines)).
Proof.
  apply (NoDup_map_inv snd). rewrite Counter_items, !map_map. simpl.
  rewrite map_id. apply first_seen_NoDup.
Qed.

(** Adjacent counting of the sorted lines and the tally hold the same rows. *)
Lemma sorted_runs_perm_tally (lines : list string) :
  Permutation (count_adjacent string_dec (sort String.ltb lines))
              (map row_of (Counter lines)).
Proof.
  apply NoDup_Permutation.
  - apply (NoDup_map_inv snd). apply count_adjacent_sorted_names_NoDup.
  - apply Counter_rows_NoDup.
  - intros [n x]. rewrite count_adjacent_sorted_In, Counter_rows_In.
    reflexivity.
Qed.

(** ** The drivers *)

Lemma driverA_import_names (E : regex_engine) (raw lines : list string) :
  import_names E raw = ok lines -> driverA E raw = ok (driverA_rows lines).
Proof.
  unfold import_names, driverA.
  destruct (grep E raw "^import") as [e|grepped]; simpl; [discriminate|].
  unfold ok. intros H. injection H as <-. reflexivity.
Qed.

Lemma driverB_import_names (E : regex_engine) (raw lines : list string) :
  import_names E raw = ok lines -> driverB E raw = ok (driverB_rows lines).
Proof.
  unfold import_names, driverB.
  destruct (grep E raw "^import") as [e|grepped]; simpl; [discriminate|].
  unfold ok. intros H. injection H as <-. reflexivity.
Qed.

Lemma driverA_rows_perm (lines : list string) :
  Permutation (driverA_rows lines)
              (count_adjacent string_dec (sort String.ltb lines)).
Proof. unfold driverA_rows. apply sorted_perm. Qed.

Lemma driverB_rows_perm (lines : list string) :
  Permutation (driverB_rows lines) (map row_of (Counter lines)).
Proof.
  unfold driverB_rows, most_common. apply Permutation_map, sorted_perm.
Qed.

Lemma driverA_rows_not_ascending (lines : list string) :
  StronglySorted (fun p q => tuple_lt p q = false) (driverA_rows lines).
Proof.
  unfold driverA_rows.
  apply sorted_reverse_sorted; [exact tuple_lt_asym | exact tuple_le_trans].
Qed.

Lemma driverA_rows_NoDup (lines : list string) : NoDup (driverA_rows lines).
Proof.
  apply (Permutation_NoDup (Permutation_sym (driverA_rows_perm lines))).
  apply (NoDup_map_inv snd). apply count_adjacent_sorted_names_NoDup.
Qed.

Lemma driverA_rows_descending (lines : list string) :
  count_desc_name_desc (driverA_rows lines).
Proof.
  unfold count_desc_name_desc.
  eapply StronglySorted_weaken;
    [|apply StronglySorted_strict;
      [apply driverA_rows_not_ascending | apply driverA_rows_NoDup]].
  intros p q _ _ [Hpq Hne]. simpl in Hpq.
  destruct (tuple_lt q p) eqn:Hqp.
  - apply tuple_lt_true in Hqp. destruct Hqp as [H|[He H]]; auto.
  - exfalso. apply Hne. apply tuple_lt_total; assumption.
Qed.

Lemma driverA_rows_count_descending (lines : list string) :
  count_descending (driverA_rows lines).
Proof.
  eapply StronglySorted_weaken; [|apply driverA_rows_descending].
  intros p q _ _ [H|[H _]]; simpl; lia.
Qed.

Lemma driverB_rows_count_descending (lines : list string) :
  count_descending (driverB_rows lines).
Proof.
  unfold count_descending, driverB_rows, most_common.
  apply StronglySorted_map.
  eapply StronglySorted_weaken;
    [|apply (sorted_reverse_sorted _ (key_lt snd));
      [apply key_lt_asym | apply key_le_trans]].
  intros [x n] [y m] _ _ H. unfold key_lt in H. simpl in *.
  apply Nat.ltb_ge in H. exact H.
Qed.

(** Among rows of one count the tally order survives [most_common]. *)
Lemma driverB_rows_ties (lines : list string) (c : nat) :
  map snd (filter (fun row => fst row =? c)%nat (driverB_rows lines)) =
  filter (fun name => count_occ string_dec lines name =? c)%nat
         (first_seen lines).
Proof.
  unfold driverB_rows, most_common.
  rewrite filter_map_swap.
  rewrite (filter_ext (fun a => (fst (row_of a) =? c)%nat)
                      (fun a => (snd a =? c)%nat))
    by (intros [x n]; reflexivity).
  rewrite filter_sorted.
  - rewrite Counter_items, filter_map_swap, !map_map. simpl.
    apply map_id.
  - intros [x n] [y m] Hx Hy. simpl in Hx, Hy.
    apply Nat.eqb_eq in Hx, Hy. unfold key_lt. simpl.
    apply Nat.ltb_ge. lia.
Qed.

(** C2, as stated, fails: rows of equal count come out in descending order
    of the name. *)
Lemma driverA_ties_not_ascending :
  driverA ReFragment.engine ["import a"; "import b"] =
  ok [(1, "b"); (1, "a")]
  /\ ~ count_desc_name_asc [(1, "b"); (1, "a")].
Proof.
  split; [reflexivity|].
  intros H. inversion H as [|? ? _ Hhd]; subst.
  inversion Hhd as [|? ? Hba _]; subst. simpl in Hba.
  destruct Hba as [Hlt|[_ Hs]]; [lia | discriminate].
Qed.

(** C2 (amended): whenever the filter and replacer stages deliver their
    lines, Driver A returns its rows sorted by count descending, and rows of
    equal count stand in descending order of the element text: the rows are
    strictly descending as [(count, element)] pairs. *)
Theorem driverA_sorted_descending :
  forall (E : regex_engine) (raw lines : list string),
    import_names E raw = ok lines ->
    driverA E raw = ok (driverA_rows lines)
    /\ count_desc_name_desc (driverA_rows lines).
Proof.
  intros E raw lines H. split.
  - apply driverA_import_names. exact H.
  - apply driverA_rows_descending.
Qed.

Lemma driverA_sorted_descending_witness :
  driverA ReFragment.engine
          ["import b"; "x = 1"; "import a"; "import b"; "import c"] =
  ok (driverA_rows ["b"; "a"; "b"; "c"])
  /\ count_desc_name_desc (driverA_rows ["b"; "a"; "b"; "c"]).
Proof.
  apply (driverA_sorted_descending ReFragment.engine
           ["import b"; "x = 1"; "import a"; "import b"; "import c"]
           ["b"; "a"; "b"; "c"]).
  reflexivity.
Defined.

Lemma Counter_rows_perm (lines lines' : list string) :
  Permutation lines lines' ->
  Permutation (map row_of (Counter lines)) (map row_of (Counter lines')).
Proof.
  intros Hperm. apply NoDup_Permutation; try apply Counter_rows_NoDup.
  intros [n x]. rewrite !Counter_rows_In.
  rewrite (proj1 (Permutation_count_occ string_dec lines lines') Hperm x).
  reflexivity.
Qed.

Lemma driver_rows_perm (lines lines' : list string) :
  Permutation lines lines' ->
  Permutation (driverA_rows lines) (driverB_rows lines').
Proof.
  intros Hperm.
  eapply perm_trans; [apply driverA_rows_perm|].
  eapply perm_trans; [apply sorted_runs_perm_tally|].
  eapply perm_trans; [apply Counter_rows_perm, Hperm|].
  symmetry. apply driverB_rows_perm.
Qed.

(** C7: on the same lines the two drivers print the same multiset of
    [(count, name)] rows, each in descending order of the count, so that they
    can differ only in the order of rows of equal count; on the same raw
    input they raise the same error or both return such rows.  The multiset
    of rows does not depend on the order in which the lines arrive either. *)
Theorem drivers_same_multiset :
  (forall lines : list string,
      Permutation (driverA_rows lines) (driverB_rows lines)
      /\ count_descending (driverA_rows lines)
      /\ count_descending (driverB_rows lines))
  /\ (forall (E : regex_engine) (raw : list string),
         match driverA E raw, driverB E raw with
         | inr rowsA, inr rowsB =>
             Permutation rowsA rowsB
             /\ count_descending rowsA
             /\ count_descending rowsB
         | inl eA, inl eB => eA = eB
         | _, _ => False
         end)
  /\ (forall lines lines' : list string,
         Permutation lines lines' ->
         Permutation (driverA_rows lines) (driverB_rows lines')).
Proof.
  assert (Hrows : forall lines : list string,
             Permutation (driverA_rows lines) (driverB_rows lines)
             /\ count_descending (driverA_rows lines)
             /\ count_descending (driverB_rows lines)).
  { intros lines. split; [|split].
    - apply driver_rows_perm, Permutation_refl.
    - apply driverA_rows_count_descending.
    - apply driverB_rows_count_descending. }
  split; [exact Hrows|]. split; [|exact driver_rows_perm].
  intros E raw. unfold driverA, driverB.
  destruct (grep E raw "^import") as [e|grepped]; simpl.
  - reflexivity.
  - apply Hrows.
Qed.

Lemma drivers_same_multiset_witness :
  Permutation (driverA_rows ["os"; "sys"; "os"])
              (driverB_rows ["sys"; "os"; "os"]).
Proof.
  apply (proj2 (proj2 drivers_same_multiset)
           ["os"; "sys"; "os"] ["sys"; "os"; "os"]).
  apply perm_trans with (l' := ["sys"; "os"; "os"]).
  - apply perm_swap.
  - apply Permutation_refl.
Defined.

(** C8: whenever the filter and replacer stages deliver their lines, Driver B
    returns its rows in descending order of the count, and the rows of any
    one count carry, in order, the distinct elements with that many
    occurrences in order of first appearance in the lines; this is not the
    alphabetical order: [b] seen before [a] is printed before [a]. *)
Theorem driverB_ties_first_seen :
  (forall (E : regex_engine) (raw lines : list string),
      import_names E raw = ok lines ->
      driverB E raw = ok (driverB_rows lines)
      /\ count_descending (driverB_rows lines)
      /\ (forall c : nat,
             map snd (filter (fun row => fst row =? c)%nat
                             (driverB_rows lines)) =
             filter (fun name => count_occ string_dec lines name =? c)%nat
                    (first_seen lines)))
  /\ driverB ReFragment.engine ["import b"; "import a"] =
     ok [(1, "b"); (1, "a")].
Proof.
  split; [|reflexivity].
  intros E raw lines H. split; [|split].
  - apply driverB_import_names. exact H.
  - apply driverB_rows_count_descending.
  - apply driverB_rows_ties.
Qed.

Lemma driverB_ties_first_seen_witness :
  driverB ReFragment.engine
          ["import b"; "x = 1"; "import a"; "import b"; "import c"] =
  ok (driverB_rows ["b"; "a"; "b"; "c"])
  /\ count_descending (driverB_rows ["b"; "a"; "b"; "c"])
  /\ (forall c : nat,
         map snd (filter (fun row => fst row =? c)%nat
                         (driverB_rows ["b"; "a"; "b"; "c"])) =
         filter (fun name =>
                   count_occ string_dec ["b"; "a"; "b"; "c"] name =? c)%nat
                (first_seen ["b"; "a"; "b"; "c"])).
Proof.
  apply (proj1 driverB_ties_first_seen ReFragment.engine
           ["import b"; "x = 1"; "import a"; "import b"; "import c"]
           ["b"; "a"; "b"; "c"]).
  reflexivity.
Defined.

(** * Further properties *)

(** ** [rstrip] *)

Lemma rstrip_cons (c : ascii) (rest chars : string) :
  rstrip (String c rest) chars =
  match rstrip rest chars with
  | EmptyString =>
      if char_in c chars then EmptyString else String c EmptyString
  | String d r => String c (String d r)
  end.
Proof. reflexivity. Qed.

Lemma rstrip_decompose (line chars : string) :
  exists tail,
    line = append (rstrip line chars) tail
    /\ all_in tail chars = true
    /\ ends_in (rstrip line chars) chars = false.
Proof.
  induction line as [|c rest IH].
  - exists "". auto.
  - destruct IH as [tail [Hrest [Hall Hend]]]. rewrite rstrip_cons.
    destruct (rstrip rest chars) as [|d r] eqn:Hr.
    + simpl in Hrest. subst tail.
      destruct (char_in c chars) eqn:Hc.
      * exists (String c rest). unfold all_in in *. simpl. rewrite Hc.
        auto.
      * exists rest. simpl. auto.
    + exists tail. split; [|split; [exact Hall | exact Hend]].
      change (append (String c (String d r)) tail)
        with (String c (append (String d r) tail)).
      rewrite <- Hrest. reflexivity.
Qed.

Lemma rstrip_all_in (t chars : string) :
  all_in t chars = true -> rstrip t chars = "".
Proof.
  unfold all_in. induction t as [|c t IH]; simpl; [reflexivity|].
  intros H. apply andb_true_iff in H. destruct H as [Hc Ht].
  rewrite (IH Ht), Hc. reflexivity.
Qed.

Lemma rstrip_append (s t chars : string) :
  all_in t chars = true -> ends_in s chars = false ->
  rstrip (append s t) chars = s.
Proof.
  intros Ht. induction s as [|c s IH]; intros Hs.
  - apply rstrip_all_in. exact Ht.
  - change (append (String c s) t) with (String c (append s t)).
    rewrite rstrip_cons. destruct s as [|d r].
    + simpl append. rewrite (rstrip_all_in _ _ Ht).
      simpl in Hs. rewrite Hs. reflexivity.
    + rewrite IH by exact Hs. reflexivity.
Qed.

(** [rstrip] drops exactly the trailing characters of [chars]: the result
    is the one prefix of the line that does not end in such a character and
    is followed by such characters only. *)
Theorem rstrip_spec :
  forall line chars stripped : string,
    rstrip line chars = stripped <->
    exists tail,
      line = append stripped tail
      /\ all_in tail chars = true
      /\ ends_in stripped chars = false.
Proof.
  intros line chars stripped. split.
  - intros <-. apply rstrip_decompose.
  - intros [tail [-> [Ht Hs]]]. apply rstrip_append; assumption.
Qed.

Lemma rstrip_spec_witness :
  rstrip (append "import os" (append nl nl)) nl = "import os".
Proof.
  apply (proj2 (rstrip_spec (append "import os" (append nl nl)) nl
                  "import os")).
  exists (append nl nl). repeat split.
Defined.

(** ** [lines_from_paths] *)

Lemma handle_after_app (evs evs' : list io_event) (h : option string) :
  handle_after (evs ++ evs') h =
  match handle_after evs h with
  | Some h' => handle_after evs' h'
  | None => None
  end.
Proof.
  revert h. induction evs as [|[path|path] evs IH]; intros h; simpl.
  - reflexivity.
  - destruct h; [reflexivity | apply IH].
  - destruct h as [path'|]; [|reflexivity].
    destruct (String.eqb path path'); [apply IH | reflexivity].
Qed.

Section LinesFromPaths.

Variable E : regex_engine.
Variable fs : filesystem.

Lemma lines_from_paths_app (paths1 paths2 : list string) :
  lines_from_paths E fs (paths1 ++ paths2) =
  match snd (lines_from_paths E fs paths1) with
  | Some e => lines_from_paths E fs paths1
  | None =>
      (fst (lines_from_paths E fs paths1)
       ++ fst (lines_from_paths E fs paths2),
       snd (lines_from_paths E fs paths2))
  end.
Proof.
  induction paths1 as [|path rest IH]; simpl.
  - destruct (lines_from_paths E fs paths2). reflexivity.
  - destruct (fs_open fs path) as [f|]; [|reflexivity].
    destruct (file_broken f); [reflexivity|].
    rewrite IH.
    destruct (lines_from_paths E fs rest) as [more [e|]]; simpl.
    + reflexivity.
    + destruct (lines_from_paths E fs paths2) as [more2 ending2]. simpl.
      rewrite app_assoc. reflexivity.
Qed.

Lemma lines_from_paths_readable (paths : list string) :
  Forall (readable fs) paths -> snd (lines_from_paths E fs paths) = None.
Proof.
  induction 1 as [|path rest [f [Hf Hb]] _ IH]; simpl; [reflexivity|].
  rewrite Hf, Hb.
  destruct (lines_from_paths E fs rest) as [more ending]. exact IH.
Qed.

Lemma lines_events_app (paths1 paths2 : list string) :
  lines_events fs (paths1 ++ paths2) =
  match snd (lines_from_paths E fs paths1) with
  | Some e => lines_events fs paths1
  | None => lines_events fs paths1 ++ lines_events fs paths2
  end.
Proof.
  induction paths1 as [|path rest IH]; simpl; [reflexivity|].
  destruct (fs_open fs path) as [f|]; [|reflexivity].
  destruct (file_broken f); [reflexivity|].
  rewrite IH.
  destruct (lines_from_paths E fs rest) as [more [e|]]; reflexivity.
Qed.

Lemma lines_from_paths_stripped (paths : list string) :
  Forall (fun line => ends_in line nl = false)
         (fst (lines_from_paths E fs paths)).
Proof.
  induction paths as [|path rest IH]; simpl; [constructor|].
  destruct (fs_open fs path) as [f|]; [|constructor].
  assert (Hf : Forall (fun line => ends_in line nl = false)
                 (map (fun line => rstrip line nl) (file_lines f))).
  { apply Forall_map. apply Forall_forall. intros line _.
    destruct (rstrip_decompose line nl) as [tail [_ [_ H]]]. exact H. }
  destruct (file_broken f); [exact Hf|].
  destruct (lines_from_paths E fs rest) as [more ending]. simpl in *.
  apply Forall_app. split; assumption.
Qed.

(** *** The generator and its drained form *)

Lemma lines_drain_created (paths : list string) :
  forall fuel,
    List.length (fst (lines_from_paths E fs paths)) < fuel ->
    lines_drain E fs fuel (LCreated paths) =
    Some (lines_events fs paths, lines_from_paths E fs paths).
Proof.
  induction paths as [|path rest IH]; intros fuel Hfuel.
  - destruct fuel; [inversion Hfuel | reflexivity].
  - destruct fuel as [|fuel]; [inversion Hfuel|].
    simpl in Hfuel |- *.
    destruct (fs_open fs path) as [f|]; [|reflexivity].
    assert (Hreading : forall pending n,
               List.length pending
               + (if file_broken f then 0
                  else List.length (fst (lines_from_paths E fs rest))) < n ->
               lines_drain E fs n
                 (LReading path pending (file_broken f) rest) =
               Some (EvClose path
                     :: (if file_broken f then []
                         else lines_events fs rest),
                     (map (fun line => rstrip line nl) pending
                      ++ (if file_broken f then []
                          else fst (lines_from_paths E fs rest)),
                      if file_broken f then Some (ExcRead path)
                      else snd (lines_from_paths E fs rest)))).
    { induction pending as [|line pending IHp]; intros n Hn.
      - destruct n as [|n]; [inversion Hn|]. simpl.
        destruct (file_broken f); [reflexivity|].
        simpl in Hn. specialize (IH (S n) Hn). simpl in IH.
        destruct (lines_advance E fs rest) as [[evs o] st].
        destruct (lines_from_paths E fs rest) as [more ending].
        destruct o as [l| |e].
        + destruct (lines_drain E fs n st) as [[evs' [ls en]]|];
            [|discriminate].
          injection IH as <- <- <-. reflexivity.
        + injection IH as <- <- <-. reflexivity.
        + injection IH as <- <- <-. reflexivity.
      - destruct n as [|n]; [inversion Hn|]. simpl in Hn |- *.
        rewrite IHp by lia. reflexivity. }
    destruct (file_lines f) as [|line pending] eqn:Hlines.
    + simpl. destruct (file_broken f); [reflexivity|].
      destruct (lines_from_paths E fs rest) as [more ending] eqn:Hrest.
      simpl in Hfuel. specialize (IH (S fuel) Hfuel). simpl in IH.
      destruct (lines_advance E fs rest) as [[evs o] st].
      destruct o as [l| |e].
      * destruct (lines_drain E fs fuel st) as [[evs' [ls en]]|];
          [|discriminate].
        injection IH as <- <- <-. reflexivity.
      * injection IH as <- <- <-. reflexivity.
      * injection IH as <- <- <-. reflexivity.
    + rewrite Hreading.
      * simpl. destruct (file_broken f); [rewrite app_nil_r; reflexivity|].
        destruct (lines_from_paths E fs rest) as [more ending].
        reflexivity.
      * destruct (file_broken f).
        -- simpl in Hfuel. rewrite length_map in Hfuel. lia.
        -- destruct (lines_from_paths E fs rest) as [more ending].
           simpl in Hfuel |- *.
           rewrite length_app, length_map in Hfuel. lia.
Qed.

(** *** One file at a time *)

Lemma lines_advance_handle (paths : list string) :
  handle_after (fst (fst (lines_advance E fs paths))) None =
  Some (held (snd (lines_advance E fs paths))).
Proof.
  induction paths as [|path rest IH]; simpl; [reflexivity|].
  destruct (fs_open fs path) as [f|]; [|reflexivity].
  destruct (file_lines f) as [|line pending]; [|reflexivity].
  destruct (file_broken f).
  - simpl. rewrite String.eqb_refl. reflexivity.
  - destruct (lines_advance E fs rest) as [[evs o] st]. simpl in *.
    rewrite String.eqb_refl. exact IH.
Qed.

Lemma lines_next_handle (g : lines_state) :
  handle_after (fst (fst (lines_next E fs g))) (held g) =
  Some (held (snd (lines_next E fs g))).
Proof.
  destruct g as [paths|path pending broken paths|]; simpl.
  - apply lines_advance_handle.
  - destruct pending as [|line pending]; [|reflexivity].
    destruct broken.
    + simpl. rewrite String.eqb_refl. reflexivity.
    + pose proof (lines_advance_handle paths) as H.
      destruct (lines_advance E fs paths) as [[evs o] st]. simpl in *.
      rewrite String.eqb_refl. exact H.
  - reflexivity.
Qed.

Lemma lines_nexts_handle (n : nat) :
  forall g,
    handle_after (fst (fst (lines_nexts E fs n g))) (held g) =
    Some (held (snd (lines_nexts E fs n g))).
Proof.
  induction n as [|n IH]; intros g; simpl; [reflexivity|].
  pose proof (lines_next_handle g) as Hg.
  destruct (lines_next E fs g) as [[evs o] g']. simpl in Hg.
  specialize (IH g').
  destruct (lines_nexts E fs n g') as [[evs' os] g'']. simpl in *.
  rewrite handle_after_app, Hg. exact IH.
Qed.

Lemma lines_close_handle (g : lines_state) :
  handle_after (fst (lines_close g)) (held g) = Some None.
Proof.
  destruct g as [paths|path pending broken paths|]; simpl;
    [reflexivity | rewrite String.eqb_refl; reflexivity | reflexivity].
Qed.

End LinesFromPaths.

Lemma lines_from_paths_all_readable_aux (E : regex_engine) (fs : filesystem)
  (paths : list string) :
  Forall (readable fs) paths ->
  lines_from_paths E fs paths = (flat_map (stripped_lines fs) paths, None)
  /\ lines_events fs paths =
     flat_map (fun path => [EvOpen path; EvClose path]) paths.
Proof.
  induction 1 as [|path rest [f [Hf Hb]] _ [IH IHev]]; simpl.
  - split; reflexivity.
  - unfold stripped_lines at 1. rewrite Hf, Hb, IH, IHev.
    split; reflexivity.
Qed.

(** With every file readable, [lines_from_paths] yields the lines of the
    files, stripped of their line ends, file after file in the order of the
    paths, and ends without an exception; each file is opened and closed in
    turn. *)
Theorem lines_from_paths_all_readable :
  forall (E : regex_engine) (fs : filesystem) (paths : list string),
    Forall (readable fs) paths ->
    lines_from_paths E fs paths = (flat_map (stripped_lines fs) paths, None)
    /\ lines_events fs paths =
       flat_map (fun path => [EvOpen path; EvClose path]) paths.
Proof. exact lines_from_paths_all_readable_aux. Qed.

Lemma sample_fs_readable : Forall (readable sample_fs) ["a.py"; "b.py"].
Proof.
  repeat constructor.
  - exists sample_file. split; reflexivity.
  - eexists. split; reflexivity.
Qed.

Lemma lines_from_paths_all_readable_witness :
  lines_from_paths ReFragment.engine sample_fs ["a.py"; "b.py"] =
  (flat_map (stripped_lines sample_fs) ["a.py"; "b.py"], None)
  /\ lines_events sample_fs ["a.py"; "b.py"] =
     flat_map (fun path => [EvOpen path; EvClose path]) ["a.py"; "b.py"].
Proof.
  apply (lines_from_paths_all_readable ReFragment.engine sample_fs
           ["a.py"; "b.py"]).
  exact sample_fs_readable.
Defined.

(** [lines_from_paths] stops at the first path it cannot read: it has
    yielded the lines of the files before it (and, when the file opens but
    reading fails, the lines read so far), then raises for that path, and
    opens none of the files after it. *)
Theorem lines_from_paths_stops_at_failure :
  forall (E : regex_engine) (fs : filesystem) (before after : list string)
         (bad : string),
    Forall (readable fs) before ->
    (fs_open fs bad = None ->
     lines_from_paths E fs (before ++ bad :: after) =
     (flat_map (stripped_lines fs) before, Some (ExcOpen bad))
     /\ lines_events fs (before ++ bad :: after) = lines_events fs before)
    /\ (forall f,
           fs_open fs bad = Some f -> file_broken f = true ->
           lines_from_paths E fs (before ++ bad :: after) =
           (flat_map (stripped_lines fs) before ++ stripped_lines fs bad,
            Some (ExcRead bad))
           /\ lines_events fs (before ++ bad :: after) =
              lines_events fs before ++ [EvOpen bad; EvClose bad]).
Proof.
  intros E fs before after bad Hbefore.
  destruct (lines_from_paths_all_readable_aux E fs before Hbefore) as [Hl _].
  split.
  - intros Hbad.
    rewrite lines_from_paths_app, (lines_events_app E), Hl. simpl.
    rewrite Hbad, !app_nil_r. split; reflexivity.
  - intros f Hf Hb.
    assert (Hs : stripped_lines fs bad =
                 map (fun line => rstrip line nl) (file_lines f))
      by (unfold stripped_lines; rewrite Hf; reflexivity).
    rewrite lines_from_paths_app, (lines_events_app E), Hl, Hs. simpl.
    rewrite Hf, Hb. split; reflexivity.
Qed.

Lemma lines_from_paths_stops_at_failure_witness :
  lines_from_paths ReFragment.engine sample_fs (["a.py"] ++ "c.py" :: ["b.py"]) =
  (flat_map (stripped_lines sample_fs) ["a.py"], Some (ExcOpen "c.py"))
  /\ lines_events sample_fs (["a.py"] ++ "c.py" :: ["b.py"]) =
     lines_events sample_fs ["a.py"].
Proof.
  apply (lines_from_paths_stops_at_failure ReFragment.engine sample_fs
           ["a.py"] ["b.py"] "c.py").
  - repeat constructor. exists sample_file. split; reflexivity.
  - reflexivity.
Defined.

(** No line [lines_from_paths] yields ends in a line feed. *)
Theorem lines_from_paths_no_line_feed :
  forall (E : regex_engine) (fs : filesystem) (paths : list string),
    Forall (fun line => ends_in line nl = false)
           (fst (lines_from_paths E fs paths)).
Proof. exact lines_from_paths_stripped. Qed.

(** Draining the generator of [lines_from_paths] yields the lines and the
    ending of its drained form, and opens and closes the files as
    [lines_events] tells. *)
Theorem lines_generator_drains :
  forall (E : regex_engine) (fs : filesystem) (paths : list string),
    lines_drain E fs (S (List.length (fst (lines_from_paths E fs paths))))
                (LCreated paths) =
    Some (lines_events fs paths, lines_from_paths E fs paths).
Proof.
  intros E fs paths. apply lines_drain_created. lia.
Qed.

(** However many lines are taken from the generator of [lines_from_paths]
    before it is closed, it never holds two files at once, a file it closes
    is the one it holds, and after [close] it holds none. *)
Theorem lines_one_file_at_a_time :
  forall (E : regex_engine) (fs : filesystem) (n : nat)
         (paths : list string),
    let run := lines_nexts E fs n (LCreated paths) in
    handle_after (fst (fst run)) None = Some (held (snd run))
    /\ handle_after (fst (fst run) ++ fst (lines_close (snd run))) None =
       Some None.
Proof.
  intros E fs n paths run.
  pose proof (lines_nexts_handle E fs n (LCreated paths)) as H.
  simpl held in H at 1. fold run in H. split; [exact H|].
  rewrite handle_after_app, H. apply lines_close_handle.
Qed.

(** ** [grep], further *)

(** A [next] on the generator of [grep] asks its input for lines up to the
    first one that matches, and no further; when none matches it asks for
    all of them and stops. *)
Theorem grep_pulls_up_to_next_match :
  forall (E : regex_engine) (compiled : re_pattern E)
         (before after : list string) (line : string),
    Forall (fun l => re_search E compiled l = false) before ->
    (re_search E compiled line = true ->
     grep_next E (Suspended compiled (before ++ line :: after)) =
     (map EvExamine (before ++ [line]), Yield line, Suspended compiled after))
    /\ grep_next E (Suspended compiled before) =
       (map EvExamine before, StopIteration, Closed).
Proof.
  intros E compiled before after line.
  induction 1 as [|l before Hl _ [IHmatch IHnone]]; simpl.
  - split; [|reflexivity]. intros ->. reflexivity.
  - rewrite Hl. simpl in IHnone. rewrite IHnone. split; [|reflexivity].
    intros Hline. simpl in IHmatch. rewrite (IHmatch Hline). reflexivity.
Qed.

Lemma grep_pulls_up_to_next_match_witness :
  grep_next ReFragment.engine
    (@Suspended ReFragment.engine
       [[(ReFragment.Lit "i", ReFragment.Once)]]
       (["x = 1"; "y = 2"] ++ "import os" :: ["import sys"])) =
  (map EvExamine (["x = 1"; "y = 2"] ++ ["import os"]),
   @Yield ReFragment.engine "import os",
   @Suspended ReFragment.engine
     [[(ReFragment.Lit "i", ReFragment.Once)]] ["import sys"]).
Proof.
  apply (grep_pulls_up_to_next_match ReFragment.engine
           ([[(ReFragment.Lit "i", ReFragment.Once)]]
            : re_pattern ReFragment.engine)
           ["x = 1"; "y = 2"] ["import sys"] "import os").
  - repeat constructor.
  - reflexivity.
Defined.

Lemma filter_idempotent {A : Type} (f : A -> bool) (l : list A) :
  filter f (filter f l) = filter f l.
Proof.
  rewrite filter_filter. apply filter_ext. intros x. apply andb_diag.
Qed.

(** Filtering what [grep] yielded once more with the same pattern keeps all
    of it. *)
Theorem grep_idempotent :
  forall (E : regex_engine) (string_list matching : list string)
         (pattern : string),
    grep E string_list pattern = ok matching ->
    grep E matching pattern = ok matching.
Proof.
  intros E string_list matching pattern H.
  destruct (grep_ok_inv _ _ _ _ H) as [compiled [Hc ->]].
  rewrite (grep_compiled _ _ _ _ Hc). unfold grep_loop.
  rewrite filter_idempotent. reflexivity.
Qed.

Lemma grep_idempotent_witness :
  grep ReFragment.engine ["import os"; "import sys"] "^import" =
  ok ["import os"; "import sys"].
Proof.
  apply (grep_idempotent ReFragment.engine
           ["import os"; "from x import y"; "import sys"]
           ["import os"; "import sys"] "^import").
  reflexivity.
Defined.

Lemma match_literal (lit : string) :
  forall (b : bool) (s : string),
    ReFragment.match_items
      (map (fun c => (ReFragment.Lit c, ReFragment.Once))
           (list_ascii_of_string lit)) b s =
    prefix lit s.
Proof.
  induction lit as [|c lit IH]; intros b s.
  - rewrite prefix_empty. reflexivity.
  - destruct s as [|d s]; [reflexivity|].
    simpl. rewrite IH. destruct (ascii_dec c d) as [<-|Hne].
    + rewrite Ascii.eqb_refl. reflexivity.
    + destruct (Ascii.eqb_spec d c) as [->|_]; [contradiction|].
      reflexivity.
Qed.

Lemma search_anchored_later (items : ReFragment.branch) (s : string) :
  ReFragment.search_from [(ReFragment.Bol, ReFragment.Once) :: items]
                         false s = false.
Proof. induction s as [|c s IH]; simpl; [reflexivity | exact IH]. Qed.

(** With the pattern of the script, [^import], [grep] keeps exactly the
    lines that start with [import], in their order. *)
Theorem grep_import_keeps_prefixed :
  forall string_list : list string,
    grep ReFragment.engine string_list "^import" =
    ok (filter (prefix "import") string_list).
Proof.
  intros string_list.
  assert (Hc : re_compile ReFragment.engine "^import" =
               ok [(ReFragment.Bol, ReFragment.Once)
                   :: map (fun c => (ReFragment.Lit c, ReFragment.Once))
                          (list_ascii_of_string "import")])
    by reflexivity.
  rewrite (grep_compiled _ _ _ _ Hc). unfold grep_loop. f_equal.
  apply filter_ext. intros line.
  change (re_search ReFragment.engine ?r line)
    with (ReFragment.search r line).
  unfold ReFragment.search.
  destruct line as [|c rest].
  - reflexivity.
  - change (ReFragment.search_from ?r true (String c rest))
      with (ReFragment.match_regex r true (String c rest)
            || ReFragment.search_from r false rest).
    rewrite search_anchored_later, orb_false_r.
    unfold ReFragment.match_regex, existsb. rewrite orb_false_r.
    change (ReFragment.match_items ((ReFragment.Bol, ReFragment.Once) :: ?items)
              true ?s)
      with (true && ReFragment.match_items items true s).
    rewrite andb_true_l. apply match_literal.
Qed.

(** ** [search_and_replace], further *)

Lemma prefix_split (old line : string) :
  prefix old line = true -> exists rest, line = append old rest.
Proof.
  revert line. induction old as [|c old IH]; intros line H.
  - exists line. reflexivity.
  - destruct line as [|d line]; [discriminate|]. simpl in H.
    destruct (ascii_dec c d) as [<-|_]; [|discriminate].
    destruct (IH line H) as [rest ->]. exists rest. reflexivity.
Qed.

Lemma replace_from_self (old : string) (n : nat) :
  old <> "" ->
  forall line,
    String.length line <= n -> replace_from 0 old old line = line.
Proof.
  intros Hold. induction n as [|n IH]; intros line Hn.
  - destruct line; [reflexivity | simpl in Hn; lia].
  - destruct line as [|d rest]; [reflexivity|].
    rewrite replace_from_cons.
    destruct (prefix old (String d rest)) eqn:Hp.
    + destruct (prefix_split _ _ Hp) as [rest' Heq].
      destruct old as [|c old']; [congruence|].
      simpl in Heq. injection Heq as <- ->.
      replace (String.length (String d old') - 1) with (String.length old')
        by (simpl; lia).
      rewrite replace_from_skip, IH; [reflexivity|].
      simpl in Hn. rewrite length_append in Hn. lia.
    + rewrite IH; [reflexivity|]. simpl in Hn. lia.
Qed.

(** Replacing a term by itself gives every line back, whatever the term. *)
Theorem search_and_replace_same_term :
  forall (strings_list : list string) (term : string),
    search_and_replace strings_list term term = strings_list.
Proof.
  intros strings_list term. unfold search_and_replace.
  rewrite <- (map_id strings_list) at 2. apply map_ext. intros line.
  destruct term as [|c term].
  - apply interleave_empty.
  - apply (replace_from_self _ (String.length line)); [discriminate | lia].
Qed.

(** Lines made of the search term followed by a text without the search
    term come out as the replacement followed by that text: with the
    arguments of the script, [import name] becomes [name]. *)
Theorem search_and_replace_leading_term :
  forall (names : list string) (search_term new_term : string),
    search_term <> "" ->
    Forall (fun name => contains search_term name = false) names ->
    search_and_replace (map (append search_term) names) search_term new_term =
    map (append new_term) names.
Proof.
  intros names search_term new_term Hterm Hnames.
  unfold search_and_replace. rewrite map_map.
  induction Hnames as [|name names Hname _ IH]; simpl; [reflexivity|].
  rewrite IH, (str_replace_occurrence _ _ _ Hterm).
  rewrite (str_replace_no_occurrence _ _ _ Hname). reflexivity.
Qed.

Lemma search_and_replace_leading_term_witness :
  search_and_replace (map (append "import ") ["os"; "sys"]) "import " "" =
  map (append "") ["os"; "sys"].
Proof.
  apply (search_and_replace_leading_term ["os"; "sys"] "import " "").
  - discriminate.
  - repeat constructor.
Defined.

Lemma replace_from_erase_length (old line : string) :
  forall skip,
    String.length (replace_from skip old "" line) <= String.length line.
Proof.
  induction line as [|c rest IH]; intros skip; [simpl; lia|].
  destruct skip as [|k].
  - rewrite replace_from_cons.
    destruct (prefix old (String c rest)).
    + pose proof (IH (String.length old - 1)) as H.
      change (append "" ?x) with x.
      change (String.length (String c rest)) with (S (String.length rest)).
      lia.
    + pose proof (IH 0) as H.
      change (String.length (String c ?x)) with (S (String.length x)).
      lia.
  - change (replace_from (S k) old "" (String c rest))
      with (replace_from k old "" rest).
    pose proof (IH k) as H.
    change (String.length (String c rest)) with (S (String.length rest)).
    lia.
Qed.

(** Replacing by the empty string, as the script does, never makes a line
    longer. *)
Theorem search_and_replace_erase_shrinks :
  forall (strings_list : list string) (search_term : string),
    Forall2 (fun new_line line => String.length new_line <= String.length line)
            (search_and_replace strings_list search_term "")
            strings_list.
Proof.
  intros strings_list search_term. unfold search_and_replace.
  induction strings_list as [|line rest IH]; simpl; constructor.
  - destruct search_term as [|c term]; simpl str_replace.
    + rewrite interleave_empty. lia.
    + apply replace_from_erase_length.
  - exact IH.
Qed.

(** ** The drivers, further *)

Lemma StronglySorted_perm_eq {A : Type} (R : A -> A -> Prop) :
  (forall x y, R x y -> R y x -> x = y) ->
  forall l l' : list A,
    StronglySorted R l -> StronglySorted R l' -> Permutation l l' -> l = l'.
Proof.
  intros Hanti. induction l as [|x t IH]; intros l' Hs Hs' Hp.
  - apply Permutation_nil in Hp. congruence.
  - destruct l' as [|y t'].
    + apply Permutation_sym, Permutation_nil in Hp. discriminate.
    + inversion Hs as [|? ? Hst Hx]; subst.
      inversion Hs' as [|? ? Hst' Hy]; subst.
      rewrite Forall_forall in Hx, Hy.
      assert (Hxy : x = y).
      { assert (Hxin : In x (y :: t'))
          by (apply (Permutation_in _ Hp); simpl; auto).
        assert (Hyin : In y (x :: t))
          by (apply (Permutation_in _ (Permutation_sym Hp)); simpl; auto).
        destruct Hxin as [->|Hxin]; [reflexivity|].
        destruct Hyin as [->|Hyin]; [reflexivity|].
        apply Hanti; auto. }
      subst y. f_equal. apply IH; try assumption.
      apply (Permutation_cons_inv Hp).
Qed.

Lemma list_sum_perm (l l' : list nat) :
  Permutation l l' -> list_sum l = list_sum l'.
Proof. induction 1; simpl; lia. Qed.

Lemma sort_strings_perm_eq (lines lines' : list string) :
  Permutation lines lines' ->
  sort String.ltb lines = sort String.ltb lines'.
Proof.
  intros Hp.
  apply (StronglySorted_perm_eq (fun a b => String.ltb b a = false)).
  - intros x y Hxy Hyx. apply string_ltb_total; assumption.
  - apply sort_strings_sorted.
  - apply sort_strings_sorted.
  - eapply perm_trans; [apply sort_perm|].
    eapply perm_trans; [exact Hp|]. symmetry. apply sort_perm.
Qed.

Lemma Counter_rows_names (lines : list string) :
  map snd (map row_of (Counter lines)) = first_seen lines.
Proof. rewrite Counter_items, !map_map. simpl. apply map_id. Qed.

(** Driver A prints one row for each distinct line it tallies, with the
    number of occurrences of that line: sorting first turns the count of
    adjacent lines into a count of all of them. *)
Theorem driverA_rows_frequencies :
  forall lines : list string,
    (forall n x,
        In (n, x) (driverA_rows lines) <->
        0 < n /\ n = count_occ string_dec lines x)
    /\ NoDup (map snd (driverA_rows lines)).
Proof.
  intros lines. split.
  - intros n x. rewrite <- count_adjacent_sorted_In. split.
    + apply Permutation_in. apply driverA_rows_perm.
    + apply Permutation_in. symmetry. apply driverA_rows_perm.
  - eapply Permutation_NoDup;
      [|apply (count_adjacent_sorted_names_NoDup lines)].
    apply Permutation_map. symmetry. apply driverA_rows_perm.
Qed.

(** Driver B prints one row for each distinct line it tallies, with the
    number of occurrences of that line. *)
Theorem driverB_rows_frequencies :
  forall lines : list string,
    (forall n x,
        In (n, x) (driverB_rows lines) <->
        0 < n /\ n = count_occ string_dec lines x)
    /\ NoDup (map snd (driverB_rows lines)).
Proof.
  intros lines. split.
  - intros n x. rewrite <- Counter_rows_In. split.
    + apply Permutation_in. apply driverB_rows_perm.
    + apply Permutation_in. symmetry. apply driverB_rows_perm.
  - eapply Permutation_NoDup;
      [apply Permutation_map; symmetry; apply driverB_rows_perm|].
    rewrite Counter_rows_names. apply first_seen_NoDup.
Qed.

(** The rows of Driver A do not depend on the order in which the lines
    arrive; those of Driver B do. *)
Theorem driverA_rows_order_independent :
  (forall lines lines' : list string,
      Permutation lines lines' -> driverA_rows lines = driverA_rows lines')
  /\ driverB_rows ["b"; "a"] <> driverB_rows ["a"; "b"].
Proof.
  split; [|discriminate].
  intros lines lines' Hp. unfold driverA_rows. simpl.
  rewrite (sort_strings_perm_eq _ _ Hp). reflexivity.
Qed.

Lemma driverA_rows_order_independent_witness :
  driverA_rows ["os"; "sys"; "os"] = driverA_rows ["sys"; "os"; "os"].
Proof.
  apply (proj1 driverA_rows_order_independent
           ["os"; "sys"; "os"] ["sys"; "os"; "os"]).
  apply perm_trans with (l' := ["sys"; "os"; "os"]).
  - apply perm_swap.
  - apply Permutation_refl.
Defined.

Lemma drivers_same_counts_column_aux (lines : list string) :
  map fst (driverA_rows lines) = map fst (driverB_rows lines).
Proof.
  apply (StronglySorted_perm_eq (fun a b => b <= a)).
  - intros x y Hxy Hyx. lia.
  - apply StronglySorted_map. apply driverA_rows_count_descending.
  - apply StronglySorted_map. apply driverB_rows_count_descending.
  - apply Permutation_map. apply driver_rows_perm, Permutation_refl.
Qed.

(** The two drivers print the same column of counts: row by row the counts
    agree, only names of equal count can be placed differently. *)
Theorem drivers_same_counts_column :
  forall lines : list string,
    map fst (driverA_rows lines) = map fst (driverB_rows lines).
Proof. exact drivers_same_counts_column_aux. Qed.

(** In both reports the counts add up to the number of lines tallied. *)
Theorem drivers_counts_total :
  forall lines : list string,
    list_sum (map fst (driverA_rows lines)) = List.length lines
    /\ list_sum (map fst (driverB_rows lines)) = List.length lines.
Proof.
  intros lines.
  assert (HA : list_sum (map fst (driverA_rows lines)) = List.length lines).
  { rewrite (list_sum_perm _ _
               (Permutation_map fst (driverA_rows_perm lines))).
    rewrite <- length_expand, expand_count_adjacent.
    apply Permutation_length, sort_perm. }
  split; [exact HA|].
  rewrite <- drivers_same_counts_column_aux. exact HA.
Qed.

(** ** The script *)

Section ScriptFacts.

Variable E : regex_engine.
Variable fs : filesystem.

Lemma script_driverA_stages :
  script_driverA E fs =
  (lines <- list_of_stream
              (search_and_replace_stream E
                 (grep_stream E
                    (lines_from_paths E fs (expand_wildcard fs wildcard))
                    "^import")
                 "import " "") ;;
   ok (driverA_rows lines)).
Proof. reflexivity. Qed.

Lemma script_driverB_stages :
  script_driverB E fs =
  (lines <- list_of_stream
              (search_and_replace_stream E
                 (grep_stream E
                    (lines_from_paths E fs (expand_wildcard fs wildcard))
                    "^import")
                 "import " "") ;;
   ok (driverB_rows lines)).
Proof.
  unfold script_driverB.
  destruct (list_of_stream _) as [e|lines]; reflexivity.
Qed.

Lemma script_stages_not_compiled (e : re_error E) :
  re_compile E "^import" = raise e ->
  list_of_stream
    (search_and_replace_stream E
       (grep_stream E (lines_from_paths E fs (expand_wildcard fs wildcard))
                    "^import")
       "import " "") =
  raise (ExcRe e).
Proof.
  intros Hc. unfold grep_stream. unfold raise in Hc. rewrite Hc. reflexivity.
Qed.

Lemma script_stages_compiled (compiled : re_pattern E) :
  re_compile E "^import" = ok compiled ->
  list_of_stream
    (search_and_replace_stream E
       (grep_stream E (lines_from_paths E fs (expand_wildcard fs wildcard))
                    "^import")
       "import " "") =
  match snd (lines_from_paths E fs (expand_wildcard fs wildcard)) with
  | Some e => raise e
  | None =>
      ok (search_and_replace
            (grep_loop E compiled
               (fst (lines_from_paths E fs (expand_wildcard fs wildcard))))
            "import " "")
  end.
Proof.
  intros Hc. unfold grep_stream. unfold ok in Hc. rewrite Hc.
  unfold list_of_stream, search_and_replace_stream. simpl.
  destruct (snd (lines_from_paths E fs (expand_wildcard fs wildcard)));
    reflexivity.
Qed.

Lemma main_of_drivers :
  main E fs =
  match script_driverA E fs with
  | inl e => ([headerA], Some e)
  | inr rowsA =>
      match script_driverB E fs with
      | inl e => ([headerA; report rowsA; headerB], Some e)
      | inr rowsB =>
          ([headerA; report rowsA; headerB; report rowsB], None)
      end
  end.
Proof.
  unfold main.
  destruct (script_driverA E fs) as [e|rowsA]; [reflexivity|].
  destruct (script_driverB E fs) as [e|rowsB]; reflexivity.
Qed.

End ScriptFacts.

(** The pattern is compiled before any file is touched: if [^import] does
    not compile, both drivers raise the pattern error whatever the state of
    the files, and the script ends after printing its first heading. *)
Lemma script_pattern_error_first :
  forall (E : regex_engine) (fs : filesystem) (e : re_error E),
    re_compile E "^import" = raise e ->
    script_driverA E fs = raise (ExcRe e)
    /\ script_driverB E fs = raise (ExcRe e)
    /\ main E fs = ([headerA], Some (ExcRe e)).
Proof.
  intros E fs e Hc.
  assert (HA : script_driverA E fs = raise (ExcRe e))
    by (rewrite script_driverA_stages, (script_stages_not_compiled E fs e Hc);
        reflexivity).
  split; [exact HA|]. split.
  - rewrite script_driverB_stages, (script_stages_not_compiled E fs e Hc).
    reflexivity.
  - rewrite main_of_drivers. unfold raise in HA. rewrite HA. reflexivity.
Qed.

(** When a matched file cannot be read, the script prints its first heading
    and ends with the exception of that file: no report is printed and the
    second driver is never run. *)
Theorem script_file_error_aborts :
  forall (E : regex_engine) (fs : filesystem) (compiled : re_pattern E)
         (e : exception E),
    re_compile E "^import" = ok compiled ->
    snd (lines_from_paths E fs (expand_wildcard fs wildcard)) = Some e ->
    script_driverA E fs = raise e
    /\ main E fs = ([headerA], Some e).
Proof.
  intros E fs compiled e Hc He.
  assert (HA : script_driverA E fs = raise e)
    by (rewrite script_driverA_stages,
          (script_stages_compiled E fs compiled Hc), He; reflexivity).
  split; [exact HA|].
  rewrite main_of_drivers. unfold raise in HA. rewrite HA. reflexivity.
Qed.

Lemma script_file_error_aborts_witness :
  script_driverA ReFragment.engine holed_fs =
  raise (@ExcOpen ReFragment.engine "c.py")
  /\ main ReFragment.engine holed_fs =
     ([headerA], Some (@ExcOpen ReFragment.engine "c.py")).
Proof.
  refine (script_file_error_aborts ReFragment.engine holed_fs _
            (@ExcOpen ReFragment.engine "c.py") _ _).
  - reflexivity.
  - reflexivity.
Defined.

(** With every matched file readable, each driver of the script is the
    driver of the stages run on the lines of the files, stripped, in the
    order of the paths. *)
Theorem script_drivers_on_readable_files :
  forall (E : regex_engine) (fs : filesystem),
    Forall (readable fs) (expand_wildcard fs wildcard) ->
    let raw := flat_map (stripped_lines fs) (expand_wildcard fs wildcard) in
    script_driverA E fs =
    match driverA E raw with
    | inl e => raise (ExcRe e)
    | inr rows => ok rows
    end
    /\ script_driverB E fs =
       match driverB E raw with
       | inl e => raise (ExcRe e)
       | inr rows => ok rows
       end.
Proof.
  intros E fs Hfiles raw.
  destruct (lines_from_paths_all_readable_aux E fs _ Hfiles) as [Hl _].
  rewrite script_driverA_stages, script_driverB_stages.
  unfold driverA, driverB, grep.
  destruct (re_compile E "^import") as [e|compiled] eqn:Hc.
  - rewrite (script_stages_not_compiled E fs e Hc). split; reflexivity.
  - rewrite (script_stages_compiled E fs compiled Hc), Hl.
    split; reflexivity.
Qed.

Lemma script_drivers_on_readable_files_witness :
  script_driverA ReFragment.engine sample_fs =
  match driverA ReFragment.engine
          (flat_map (stripped_lines sample_fs)
                    (expand_wildcard sample_fs wildcard)) with
  | inl e => raise (ExcRe e)
  | inr rows => ok rows
  end
  /\ script_driverB ReFragment.engine sample_fs =
     match driverB ReFragment.engine
             (flat_map (stripped_lines sample_fs)
                       (expand_wildcard sample_fs wildcard)) with
     | inl e => raise (ExcRe e)
     | inr rows => ok rows
     end.
Proof.
  apply (script_drivers_on_readable_files ReFragment.engine sample_fs).
  exact sample_fs_readable.
Defined.

(** The script either ends in the first driver, having printed only its
    first heading, or prints both headings and both reports and ends
    normally; the two reports then hold the same rows up to order.  It never
    stops between the reports. *)
Theorem main_outcomes :
  forall (E : regex_engine) (fs : filesystem),
    match script_driverA E fs with
    | inl e => main E fs = ([headerA], Some e)
    | inr rowsA =>
        exists rowsB,
          script_driverB E fs = ok rowsB
          /\ main E fs =
             ([headerA; report rowsA; headerB; report rowsB], None)
          /\ Permutation rowsA rowsB
    end.
Proof.
  intros E fs. rewrite main_of_drivers.
  rewrite script_driverA_stages, script_driverB_stages.
  destruct (list_of_stream _) as [e|lines]; simpl.
  - reflexivity.
  - exists (driverB_rows lines). split; [reflexivity|]. split; [reflexivity|].
    apply driver_rows_perm, Permutation_refl.
Qed.

(** When the wildcard matches no file, the script prints its two headings,
    each followed by an empty report, and ends normally. *)
Theorem main_no_files :
  forall (E : regex_engine) (fs : filesystem) (compiled : re_pattern E),
    fs_glob fs wildcard = [] ->
    re_compile E "^import" = ok compiled ->
    main E fs = ([headerA; ""; headerB; ""], None).
Proof.
  intros E fs compiled Hglob Hc.
  rewrite main_of_drivers, script_driverA_stages, script_driverB_stages.
  rewrite (script_stages_compiled E fs compiled Hc).
  unfold expand_wildcard. rewrite Hglob. reflexivity.
Qed.

Lemma main_no_files_witness :
  main ReFragment.engine
       {| fs_glob := fun _ => []; fs_open := fun _ => None |} =
  ([headerA; ""; headerB; ""], None).
Proof.
  refine (main_no_files ReFragment.engine
            {| fs_glob := fun _ => []; fs_open := fun _ => None |} _ _ _).
  - reflexivity.
  - reflexivity.
Defined.

(** ** The printed rows *)

Lemma digits_no_space (d : Decimal.uint) :
  Forall (fun c => c <> " "%char)
         (list_ascii_of_string (NilEmpty.string_of_uint d)).
Proof. induction d; simpl; constructor; try discriminate; assumption. Qed.

Lemma to_uint_not_nil (n : nat) : Nat.to_uint n <> Decimal.Nil.
Proof.
  intros H. pose proof (DecimalNat.Unsigned.of_to n) as Hn.
  rewrite H in Hn. simpl in Hn. subst n. discriminate.
Qed.

Lemma str_of_nat_no_space (n : nat) :
  Forall (fun c => c <> " "%char)
         (list_ascii_of_string (NilZero.string_of_uint (Nat.to_uint n))).
Proof.
  pose proof (to_uint_not_nil n) as Hn.
  destruct (Nat.to_uint n) eqn:Hd; try contradiction;
    apply (digits_no_space _).
Qed.

Lemma str_of_nat_inj (n m : nat) :
  NilZero.string_of_uint (Nat.to_uint n) =
  NilZero.string_of_uint (Nat.to_uint m) ->
  n = m.
Proof.
  intros H. apply DecimalNat.Unsigned.to_uint_inj.
  apply (f_equal NilZero.uint_of_string) in H.
  rewrite !NilZero.usu in H by apply to_uint_not_nil.
  congruence.
Qed.

Lemma split_at_space (a : string) :
  forall (b x y : string),
    Forall (fun c => c <> " "%char) (list_ascii_of_string a) ->
    Forall (fun c => c <> " "%char) (list_ascii_of_string b) ->
    append a (append " " x) = append b (append " " y) ->
    a = b /\ x = y.
Proof.
  induction a as [|c a IH]; intros b x y Ha Hb Heq.
  - destruct b as [|d b]; simpl in Heq.
    + injection Heq as ->. auto.
    + injection Heq as <- _. simpl in Hb. inversion Hb. congruence.
  - destruct b as [|d b]; simpl in Heq.
    + injection Heq as -> _. simpl in Ha. inversion Ha. congruence.
    + injection Heq as -> Heq. simpl in Ha, Hb.
      inversion Ha; inversion Hb; subst.
      destruct (IH b x y) as [-> ->]; auto.
Qed.

(** Different rows are printed as different lines: the count and the name
    can be read back from [count name]. *)
Theorem format_row_injective :
  forall row row' : nat * string,
    format_row row = format_row row' -> row = row'.
Proof.
  intros [n x] [m y] H. unfold format_row in H. simpl in H.
  apply split_at_space in H; try apply str_of_nat_no_space.
  destruct H as [Hn ->]. apply str_of_nat_inj in Hn. congruence.
Qed.

Lemma format_row_injective_witness :
  (3, "os") = (3, "os").
Proof.
  apply (format_row_injective (3, "os") (3, "os")). reflexivity.
Defined.

(** ** [count_adjacent], further *)

Lemma groupby_from_boundary {A : Type}
  (eq_dec : forall x y : A, {x = y} + {x <> y}) (x y : A) (back : list A) :
  x <> y ->
  forall (front : list A) (target : A) (group : list A),
    groupby_from eq_dec target group (front ++ x :: y :: back) =
    groupby_from eq_dec target group (front ++ [x])
    ++ groupby_from eq_dec y [y] back.
Proof.
  intros Hxy. induction front as [|z front IH]; intros target group; simpl.
  - destruct (eq_dec target x) as [->|Hne]; simpl.
    + destruct (eq_dec x y) as [Heq|_]; [contradiction | reflexivity].
    + destruct (eq_dec x y) as [Heq|_]; [contradiction | reflexivity].
  - destruct (eq_dec target z) as [->|Hne]; simpl; rewrite IH; reflexivity.
Qed.

(** Where two neighbouring elements differ the input can be cut: the pairs
    of the whole are the pairs of the part up to the cut followed by the
    pairs of the part after it. *)
Theorem count_adjacent_cut :
  forall (A : Type) (eq_dec : forall x y : A, {x = y} + {x <> y})
         (front back : list A) (x y : A),
    x <> y ->
    count_adjacent eq_dec (front ++ x :: y :: back) =
    count_adjacent eq_dec (front ++ [x]) ++ count_adjacent eq_dec (y :: back).
Proof.
  intros A eq_dec front back x y Hxy. unfold count_adjacent.
  rewrite <- map_app. f_equal.
  destruct front as [|z front]; simpl.
  - destruct (eq_dec x y) as [Heq|_]; [contradiction | reflexivity].
  - apply groupby_from_boundary. exact Hxy.
Qed.

Lemma count_adjacent_cut_witness :
  count_adjacent string_dec (["a"; "a"] ++ "a" :: "b" :: ["c"; "c"]) =
  count_adjacent string_dec (["a"; "a"] ++ ["a"])
  ++ count_adjacent string_dec ("b" :: ["c"; "c"]).
Proof.
  apply (count_adjacent_cut string string_dec ["a"; "a"] ["c"; "c"] "a" "b").
  discriminate.
Defined.
